(** * MatrixRTCSessionManager: the per-room session registry of matrix-js-sdk

    A shallow embedding of [src/matrixrtc/MatrixRTCSessionManager.ts].  The
    manager owns one JavaScript [Map] from room identifiers to session
    objects.  Session objects are mutable and shared by reference, so the
    embedding keeps a store of session objects and lets the registry hold
    locations in that store.  Everything the manager does to the outside
    (notifications it emits, listeners it registers on the client, methods it
    invokes on session objects, log lines, timers) is recorded in the state
    so that it can be counted. *)

From stdpp Require Import gmap strings list fin_maps.

(** ** Data the manager observes *)

(** [enum MatrixRTCSessionManagerEvents] *)
Inductive MatrixRTCSessionManagerEvents :=
  | SessionStarted
  | SessionEnded.

#[global] Instance MatrixRTCSessionManagerEvents_eq_dec :
  EqDecision MatrixRTCSessionManagerEvents.
Proof. solve_decision. Defined.

(** What the manager reads from a [MatrixEvent]: the results of [getId()],
    [getType()], [getRoomId()], [isDecryptionFailure()] and the
    [decryptionFailureReason] property.  [None] stands for JavaScript's
    [undefined] (or [null] for the failure reason). *)
Record MatrixEvent := {
  getId : option string;
  getType : string;
  getRoomId : option string;
  isDecryptionFailure : bool;
  decryptionFailureReason : option string;
}.

#[global] Instance MatrixEvent_eq_dec : EqDecision MatrixEvent.
Proof. solve_decision. Defined.

(** The three client event streams the manager listens to:
    [ClientEvent.Room], [RoomEvent.Timeline], [RoomStateEvent.Events]. *)
Inductive ClientStream :=
  | ClientEvent_Room
  | RoomEvent_Timeline
  | RoomStateEvent_Events.

#[global] Instance ClientStream_eq_dec : EqDecision ClientStream.
Proof. solve_decision. Defined.

(** A location in the store of session objects: object identity. *)
Abbreviation loc := nat.

(** One call of [this.emit(kind, room.roomId, this.roomSessions.get(room.roomId)!)].
    The third argument is the result of the [Map.get], [None] for [undefined]. *)
Record Emission := {
  emKind : MatrixRTCSessionManagerEvents;
  emRoomId : string;
  emSession : option loc;
}.

#[global] Instance Emission_eq_dec : EqDecision Emission.
Proof. solve_decision. Defined.

(** A method invoked on a session object. *)
Inductive SessionCall :=
  | Call_onRTCSessionMemberUpdate
  | Call_onCallEncryption (event : MatrixEvent)
  | Call_stop.

#[global] Instance SessionCall_eq_dec : EqDecision SessionCall.
Proof. solve_decision. Defined.

Inductive LogLevel := LogInfo | LogWarn | LogError.

#[global] Instance LogLevel_eq_dec : EqDecision LogLevel.
Proof. solve_decision. Defined.

(** A [setTimeout(() => this.consumeCallEncryptionEvent(event, isRetry), delay)]:
    the captured event, the captured flag and the delay in milliseconds. *)
Record Timeout := {
  timeoutEvent : MatrixEvent;
  timeoutIsRetry : bool;
  timeoutDelay : N;
}.

(** Template literals print [undefined] and [null] by name. *)
Definition showUndefined (o : option string) : string := default "undefined" o.
Definition showNull (o : option string) : string := default "null" o.

(** ** External collaborators

    [MatrixClient], [Room], [MatrixRTCSession] and the [EventType] constants
    are imported by the manager and not part of the file; they are taken as
    parameters.  [World] is the state of everything outside the manager (the
    client's rooms, their room state, the crypto layer) at the moment a
    handler runs; it is fixed while a synchronous handler runs and may differ
    from one handler to the next. *)
Class External := {
  World : Type;
  Room : Type;
  roomId : Room → string;
  (* client.getRooms(), which some callers let return nothing *)
  getRooms : World → option (list Room);
  (* client.getRoom(roomId), null for unknown rooms *)
  getRoom : World → option string → option Room;
  (* the event as it is once client.decryptEventIfNeeded(event) has resolved *)
  decryptEventIfNeeded : World → MatrixEvent → MatrixEvent;
  CallMembership : Type;
  MatrixRTCSession : Type;
  memberships : MatrixRTCSession → list CallMembership;
  (* MatrixRTCSession.roomSessionForRoom(client, room) *)
  roomSessionForRoom : World → Room → MatrixRTCSession;
  onRTCSessionMemberUpdate : World → MatrixRTCSession → MatrixRTCSession;
  onCallEncryption : World → MatrixEvent → MatrixRTCSession → MatrixRTCSession;
  sessionStop : World → MatrixRTCSession → MatrixRTCSession;
  (* EventType.CallEncryptionKeysPrefix and EventType.GroupCallMemberPrefix *)
  CallEncryptionKeysPrefix : string;
  GroupCallMemberPrefix : string;
}.

(** [EventEmitter.off] removes one registration of the listener. *)
Fixpoint removeListener (x : ClientStream) (l : list ClientStream) : list ClientStream :=
  match l with
  | [] => []
  | y :: l' => if decide (x = y) then l' else y :: removeListener x l'
  end.

Module Manager.
Section Manager.
Context `{E : External}.

(** ** State *)
Record State := mkState {
  (* private roomSessions = new Map<string, MatrixRTCSession>() *)
  roomSessions : gmap string loc;
  (* the session objects created so far; a location is an index *)
  heap : list MatrixRTCSession;
  (* registrations of the manager's handlers on the client *)
  listeners : list ClientStream;
  (* what the manager has emitted, oldest first *)
  emitted : list Emission;
  (* methods the manager has invoked on session objects, oldest first *)
  calls : list (loc * SessionCall);
  (* lines written to the logger, oldest first *)
  logs : list (LogLevel * string);
  (* timers the manager has set, oldest first *)
  timers : list Timeout;
}.

(** A freshly constructed manager. *)
Definition init : State :=
  mkState ∅ [] [] [] [] [] [].

Definition withRoomSessions (m : gmap string loc) (s : State) : State :=
  mkState m (heap s) (listeners s) (emitted s) (calls s) (logs s) (timers s).

Definition withListeners (ls : list ClientStream) (s : State) : State :=
  mkState (roomSessions s) (heap s) ls (emitted s) (calls s) (logs s) (timers s).

(** [new MatrixRTCSession(...)]: the object gets the next free location. *)
Definition allocate (o : MatrixRTCSession) (s : State) : loc * State :=
  (length (heap s),
   mkState (roomSessions s) (heap s ++ [o]) (listeners s) (emitted s) (calls s)
           (logs s) (timers s)).

(** [sess.method(...)]: the object at [l] is mutated in place and the call is
    recorded. *)
Definition invoke (l : loc) (c : SessionCall)
    (f : MatrixRTCSession → MatrixRTCSession) (s : State) : State :=
  mkState (roomSessions s) (alter f l (heap s)) (listeners s) (emitted s)
          (calls s ++ [(l, c)]) (logs s) (timers s).

(** [sess.memberships.length] *)
Definition membershipsLength (s : State) (l : loc) : nat :=
  match heap s !! l with
  | Some o => length (memberships o)
  | None => 0
  end.

(** [this.emit(kind, rid, this.roomSessions.get(rid)!)] *)
Definition emit (k : MatrixRTCSessionManagerEvents) (rid : string) (s : State) : State :=
  mkState (roomSessions s) (heap s) (listeners s)
          (emitted s ++ [{| emKind := k; emRoomId := rid;
                            emSession := roomSessions s !! rid |}])
          (calls s) (logs s) (timers s).

Definition log (lvl : LogLevel) (msg : string) (s : State) : State :=
  mkState (roomSessions s) (heap s) (listeners s) (emitted s) (calls s)
          (logs s ++ [(lvl, msg)]) (timers s).

Definition setTimeout (event : MatrixEvent) (isRetry : bool) (ms : N) (s : State) : State :=
  mkState (roomSessions s) (heap s) (listeners s) (emitted s) (calls s) (logs s)
          (timers s ++ [{| timeoutEvent := event; timeoutIsRetry := isRetry;
                           timeoutDelay := ms |}]).

Definition clientOn (x : ClientStream) (s : State) : State :=
  withListeners (listeners s ++ [x]) s.

Definition clientOff (x : ClientStream) (s : State) : State :=
  withListeners (removeListener x (listeners s)) s.

(** ** Operations *)

(** One turn of the loop in [start]: the session is created for every room
    and stored only when it has members. *)
Definition seedRoom (w : World) (s : State) (room : Room) : State :=
  let session := roomSessionForRoom w room in
  let '(l, s1) := allocate session s in
  if bool_decide (0 < length (memberships session))
  then withRoomSessions (<[roomId room := l]> (roomSessions s1)) s1
  else s1.

Definition start (w : World) (s : State) : State :=
  let s1 := foldl (seedRoom w) s (default [] (getRooms w)) in
  clientOn RoomStateEvent_Events
    (clientOn RoomEvent_Timeline
      (clientOn ClientEvent_Room s1)).

(** [this.roomSessions.values()].  A JavaScript [Map] is iterated in the
    order of insertion and a [gmap] in an order of its own; nothing below
    depends on the order in which the sessions are stopped. *)
Definition sessionValues (s : State) : list loc :=
  (map_to_list (roomSessions s)).*2.

Definition stop (w : World) (s : State) : State :=
  let s1 := foldl (λ s' l, invoke l Call_stop (sessionStop w) s') s (sessionValues s) in
  let s2 := withRoomSessions ∅ s1 in
  clientOff RoomStateEvent_Events
    (clientOff RoomEvent_Timeline
      (clientOff ClientEvent_Room s2)).

Definition getActiveRoomSession (room : Room) (s : State) : option loc :=
  roomSessions s !! roomId room.

(** [has] and the final [get] read the same key, so they are one match. *)
Definition getRoomSession (w : World) (room : Room) (s : State) : loc * State :=
  match roomSessions s !! roomId room with
  | Some l => (l, s)
  | None =>
      let '(l, s1) := allocate (roomSessionForRoom w room) s in
      (l, withRoomSessions (<[roomId room := l]> (roomSessions s1)) s1)
  end.

Definition unknownRoomMessage (event : MatrixEvent) : string :=
  "Got room state event for unknown room " +:+ showUndefined (getRoomId event) +:+ "!".

Definition decryptionFailedMessage (event : MatrixEvent) : string :=
  "Decryption failed for event " +:+ showUndefined (getId event) +:+ ": "
    +:+ showNull (decryptionFailureReason event).

(** The body of [consumeCallEncryptionEvent] from the point where the awaited
    [decryptEventIfNeeded] has resolved; [w] is the world at that point. *)
Definition consumeCallEncryptionEvent (w : World) (event : MatrixEvent)
    (isRetry : bool) (s : State) : State :=
  let event := decryptEventIfNeeded w event in
  if isDecryptionFailure event then
    if negb isRetry then
      setTimeout event true 1000
        (log LogWarn (decryptionFailedMessage event +:+ " will retry once only") s)
    else
      log LogWarn (decryptionFailedMessage event) s
  else
    let s1 :=
      if isRetry
      then log LogInfo ("Decryption succeeded for event "
                          +:+ showUndefined (getId event) +:+ " after retry") s
      else s in
    if bool_decide (getType event ≠ CallEncryptionKeysPrefix) then s1
    else
      match getRoom w (getRoomId event) with
      | None => log LogError (unknownRoomMessage event) s1
      | Some room =>
          let '(sess, s2) := getRoomSession w room s1 in
          invoke sess (Call_onCallEncryption event) (onCallEncryption w event) s2
      end.

Definition onTimeline (w : World) (event : MatrixEvent) (s : State) : State :=
  consumeCallEncryptionEvent w event false s.

Definition refreshRoom (w : World) (room : Room) (s : State) : State :=
  let isNewSession := negb (bool_decide (is_Some (roomSessions s !! roomId room))) in
  let '(sess, s1) := getRoomSession w room s in
  let wasActiveAndKnown :=
    bool_decide (0 < membershipsLength s1 sess) && negb isNewSession in
  let s2 := invoke sess Call_onRTCSessionMemberUpdate (onRTCSessionMemberUpdate w) s1 in
  let nowActive := bool_decide (0 < membershipsLength s2 sess) in
  if wasActiveAndKnown && negb nowActive then emit SessionEnded (roomId room) s2
  else if negb wasActiveAndKnown && nowActive then emit SessionStarted (roomId room) s2
  else s2.

Definition onRoom (w : World) (room : Room) (s : State) : State :=
  refreshRoom w room s.

Definition onRoomState (w : World) (event : MatrixEvent) (s : State) : State :=
  match getRoom w (getRoomId event) with
  | None => log LogError (unknownRoomMessage event) s
  | Some room =>
      if bool_decide (getType event = GroupCallMemberPrefix)
      then refreshRoom w room s
      else s
  end.

(** The timer callback [() => this.consumeCallEncryptionEvent(event, true)]
    when it runs, in the world of that moment. *)
Definition fireTimeout (w : World) (t : Timeout) (s : State) : State :=
  consumeCallEncryptionEvent w (timeoutEvent t) (timeoutIsRetry t) s.

(** ** The manager as a reactive system *)

(** A session object changed by somebody else.  The manager hands out the
    session objects themselves ([getRoomSession], [getActiveRoomSession], the
    notifications), so the application that holds one, or the session itself,
    may change it between two handlers of the manager; the manager records
    nothing of it. *)
Definition changeSession (l : loc) (change : MatrixRTCSession → MatrixRTCSession)
    (s : State) : State :=
  mkState (roomSessions s) (alter change l (heap s)) (listeners s) (emitted s)
          (calls s) (logs s) (timers s).

(** What can happen to a manager: calls of its public methods, the three
    client events it subscribed to, a retry timer going off, and a session
    object being changed outside the manager. *)
Inductive Input :=
  | CallStart
  | CallStop
  | CallGetActiveRoomSession (room : Room)
  | CallGetRoomSession (room : Room)
  | RoomAppeared (room : Room)
  | TimelineEvent (event : MatrixEvent)
  | RoomStateEvent (event : MatrixEvent)
  | RetryFired (t : Timeout)
  | SessionChanged (l : loc) (change : MatrixRTCSession → MatrixRTCSession).

Definition step (w : World) (i : Input) (s : State) : State :=
  match i with
  | CallStart => start w s
  | CallStop => stop w s
  | CallGetActiveRoomSession _ => s
  | CallGetRoomSession room => (getRoomSession w room s).2
  | RoomAppeared room => onRoom w room s
  | TimelineEvent event => onTimeline w event s
  | RoomStateEvent event => onRoomState w event s
  | RetryFired t => fireTimeout w t s
  | SessionChanged l change => changeSession l change s
  end.

(** Inputs other than the lifecycle calls [start] and [stop]; a retry timer
    carries the flag the manager gives it. *)
Definition whileRunning (i : Input) : bool :=
  match i with
  | CallStart | CallStop => false
  | RetryFired t => timeoutIsRetry t
  | _ => true
  end.

(** Inputs are handled one after the other, each in the world of its time. *)
Definition run (trace : list (World * Input)) (s : State) : State :=
  foldl (λ s' wi, step wi.1 wi.2 s') s trace.

(** States a manager can be in: [start] is only called on a manager that is
    not subscribed (its contract: never twice without a [stop] between). *)
Inductive reachable : State → Prop :=
  | reachable_init : reachable init
  | reachable_start w s :
      reachable s → listeners s = [] → reachable (start w s)
  | reachable_stop w s :
      reachable s → reachable (stop w s)
  | reachable_step w i s :
      reachable s → whileRunning i = true → reachable (step w i s).

(** The room has a registered session with at least one member. *)
Definition active (s : State) (rid : string) : bool :=
  match roomSessions s !! rid with
  | Some l => bool_decide (0 < membershipsLength s l)
  | None => false
  end.

(** The part of the state the handlers read: everything but the log and the
    timers that were set. *)
Definition core (s : State) :
    gmap string loc * list MatrixRTCSession * list ClientStream
    * list Emission * list (loc * SessionCall) :=
  (roomSessions s, heap s, listeners s, emitted s, calls s).

(** Invariants of reachable states. *)
Definition registryInjective (s : State) : Prop :=
  ∀ r1 r2 l, roomSessions s !! r1 = Some l → roomSessions s !! r2 = Some l → r1 = r2.

Definition registryBound (s : State) : Prop :=
  ∀ r l, roomSessions s !! r = Some l → l < length (heap s).

Definition subscribedOnce (s : State) : Prop :=
  listeners s = []
  ∨ listeners s = [ClientEvent_Room; RoomEvent_Timeline; RoomStateEvent_Events].

Definition wellFormed (s : State) : Prop :=
  registryInjective s ∧ registryBound s ∧ subscribedOnce s.

(** One timeline event followed to its end: the first attempt in world [w1],
    then every timer that attempt has set, fired in world [w2]. *)
Definition timelineToCompletion (w1 w2 : World) (event : MatrixEvent) (s : State) : State :=
  let s1 := onTimeline w1 event s in
  foldl (λ s' t, fireTimeout w2 t s') s1 (drop (length (timers s)) (timers s1)).

(** ** Reading the records of a run *)

(** What has been emitted, invoked and set between an earlier state and a
    later one (the records only grow at their end). *)
Definition emittedSince (s s' : State) : list Emission :=
  drop (length (emitted s)) (emitted s').

Definition callsSince (s s' : State) : list (loc * SessionCall) :=
  drop (length (calls s)) (calls s').

Definition timersSince (s s' : State) : list Timeout :=
  drop (length (timers s)) (timers s').

(** The kinds of the notifications emitted for one room, oldest first. *)
Definition emissionsFor (rid : string) (es : list Emission) :
    list MatrixRTCSessionManagerEvents :=
  emKind <$> filter (λ e, emRoomId e = rid) es.

(** No two neighbours in the list are the same kind. *)
Fixpoint alternates (ks : list MatrixRTCSessionManagerEvents) : bool :=
  match ks with
  | [] => true
  | k1 :: ks' =>
      match ks' with
      | [] => true
      | k2 :: _ => bool_decide (k1 ≠ k2) && alternates ks'
      end
  end.

Definition isTimelineEvent (i : Input) : bool :=
  match i with
  | TimelineEvent _ => true
  | _ => false
  end.

(** The number of timeline events in a trace. *)
Definition timelineEvents (trace : list (World * Input)) : nat :=
  length (filter (λ wi, isTimelineEvent wi.2) trace).

(** Every timer going off in the trace is one marked as a retry, as the
    timers the manager sets are. *)
Definition retriesMarked (trace : list (World * Input)) : Prop :=
  Forall (λ wi, match wi.2 with
                | RetryFired t => timeoutIsRetry t = true
                | _ => True
                end) trace.

(** A retry timer as the manager sets it: marked as a retry, of 1000 ms, for
    an event whose decryption failed. *)
Definition isRetryTimer (t : Timeout) : Prop :=
  timeoutIsRetry t = true ∧ timeoutDelay t = 1000%N
  ∧ isDecryptionFailure (timeoutEvent t) = true.

(** Outside the manager, nothing changes how many members a session has. *)
Definition keepsMembers (i : Input) : Prop :=
  match i with
  | SessionChanged _ change =>
      ∀ o, length (memberships (change o)) = length (memberships o)
  | _ => True
  end.

(** Inputs that are neither a room appearing nor a call-member state event. *)
Definition noMemberNews (i : Input) : Prop :=
  match i with
  | RoomAppeared _ => False
  | RoomStateEvent event => getType event ≠ GroupCallMemberPrefix
  | _ => True
  end.

End Manager.
End Manager.

(** ** A reference client

    The properties below hold for every implementation of the collaborators.
    To evaluate the manager on concrete inputs, this module gives one
    implementation of them, following what the specification says at the
    boundary. *)
Module Reference.

Record RefRoom := {
  refRoomId : string;
  (* the call memberships the room state of the room announces *)
  refRoomMemberships : list nat;
}.

Record RefWorld := {
  refRooms : option (list RefRoom);
  (* identifiers of the events the crypto layer cannot decrypt *)
  refUndecryptable : list (option string);
}.

Record RefSession := {
  refSessionRoom : string;
  refSessionMemberships : list nat;
  refSessionKeys : list MatrixEvent;
  refSessionStopped : nat;
}.

(** Modelled from the spec: [client.getRoom] of [client.ts] is missing; room
    lookup by identifier, absent for unknown rooms. *)
Definition refGetRoom (w : RefWorld) (rid : option string) : option RefRoom :=
  match rid with
  | Some r => List.find (λ room, bool_decide (refRoomId room = r)) (default [] (refRooms w))
  | None => None
  end.

(** Modelled from the spec: [client.decryptEventIfNeeded] of [client.ts] is
    missing; a decrypt-if-needed operation after which the event reports its
    decryption status and failure reason. *)
Definition refDecrypt (w : RefWorld) (event : MatrixEvent) : MatrixEvent :=
  if bool_decide (getId event ∈ refUndecryptable w)
  then {| getId := getId event; getType := getType event; getRoomId := getRoomId event;
          isDecryptionFailure := true;
          decryptionFailureReason := Some "MEGOLM_UNKNOWN_INBOUND_SESSION_ID" |}
  else {| getId := getId event; getType := getType event; getRoomId := getRoomId event;
          isDecryptionFailure := false;
          decryptionFailureReason := None |}.

(** Modelled from the spec: [MatrixRTCSession.roomSessionForRoom] of
    [MatrixRTCSession.ts] is missing; the new session's members are computed
    from current room state at creation time. *)
Definition refRoomSessionForRoom (w : RefWorld) (room : RefRoom) : RefSession :=
  {| refSessionRoom := refRoomId room;
     refSessionMemberships := refRoomMemberships room;
     refSessionKeys := [];
     refSessionStopped := 0 |}.

(** Modelled from the spec: [onRTCSessionMemberUpdate] of
    [MatrixRTCSession.ts] is missing; it recomputes membership from the
    current room state of the session's room. *)
Definition refMemberUpdate (w : RefWorld) (sess : RefSession) : RefSession :=
  match refGetRoom w (Some (refSessionRoom sess)) with
  | Some room =>
      {| refSessionRoom := refSessionRoom sess;
         refSessionMemberships := refRoomMemberships room;
         refSessionKeys := refSessionKeys sess;
         refSessionStopped := refSessionStopped sess |}
  | None => sess
  end.

(** Modelled from the spec: [onCallEncryption] of [MatrixRTCSession.ts] is
    missing; it ingests one decrypted control event. *)
Definition refCallEncryption (w : RefWorld) (event : MatrixEvent) (sess : RefSession) : RefSession :=
  {| refSessionRoom := refSessionRoom sess;
     refSessionMemberships := refSessionMemberships sess;
     refSessionKeys := refSessionKeys sess ++ [event];
     refSessionStopped := refSessionStopped sess |}.

(** Modelled from the spec: [stop] of [MatrixRTCSession.ts] is missing; the
    terminal operation of a session, counted here. *)
Definition refStop (w : RefWorld) (sess : RefSession) : RefSession :=
  {| refSessionRoom := refSessionRoom sess;
     refSessionMemberships := refSessionMemberships sess;
     refSessionKeys := refSessionKeys sess;
     refSessionStopped := S (refSessionStopped sess) |}.

(** Modelled from the spec: the collaborators of the manager, with the two
    [EventType] constants of [@types/event.ts] as the SDK spells them. *)
#[global] Instance refExternal : External := {|
  World := RefWorld;
  Room := RefRoom;
  roomId := refRoomId;
  getRooms := refRooms;
  getRoom := refGetRoom;
  decryptEventIfNeeded := refDecrypt;
  CallMembership := nat;
  MatrixRTCSession := RefSession;
  memberships := refSessionMemberships;
  roomSessionForRoom := refRoomSessionForRoom;
  onRTCSessionMemberUpdate := refMemberUpdate;
  onCallEncryption := refCallEncryption;
  sessionStop := refStop;
  CallEncryptionKeysPrefix := "io.element.call.encryption_keys";
  GroupCallMemberPrefix := "org.matrix.msc3401.call.member";
|}.

(** Two rooms, the first with one call member, the second with none. *)
Definition roomA : RefRoom := {| refRoomId := "!a:example.org"; refRoomMemberships := [1] |}.
Definition roomB : RefRoom := {| refRoomId := "!b:example.org"; refRoomMemberships := [] |}.
Definition roomC : RefRoom := {| refRoomId := "!c:example.org"; refRoomMemberships := [2; 3] |}.

(** A client that knows the three rooms and can decrypt everything. *)
Definition world : RefWorld :=
  {| refRooms := Some [roomA; roomB; roomC]; refUndecryptable := [] |}.

(** The same client while it lacks the keys of event [$keys]. *)
Definition worldNoKeys : RefWorld :=
  {| refRooms := Some [roomA; roomB; roomC]; refUndecryptable := [Some "$keys"] |}.

(** An encryption-keys event sent to room A. *)
Definition keysEvent : MatrixEvent :=
  {| getId := Some "$keys"; getType := "io.element.call.encryption_keys";
     getRoomId := Some "!a:example.org"; isDecryptionFailure := false;
     decryptionFailureReason := None |}.

(** An ordinary message of room A. *)
Definition messageEvent : MatrixEvent :=
  {| getId := Some "$keys"; getType := "m.room.message";
     getRoomId := Some "!a:example.org"; isDecryptionFailure := false;
     decryptionFailureReason := None |}.

(** An ordinary message naming a room the client does not know. *)
Definition strayMessage : MatrixEvent :=
  {| getId := Some "$stray"; getType := "m.room.message";
     getRoomId := Some "!nowhere:example.org"; isDecryptionFailure := false;
     decryptionFailureReason := None |}.

(** An encryption-keys event naming a room the client does not know. *)
Definition strayKeys : MatrixEvent :=
  {| getId := Some "$stray"; getType := "io.element.call.encryption_keys";
     getRoomId := Some "!nowhere:example.org"; isDecryptionFailure := false;
     decryptionFailureReason := None |}.

(** A call-member state event naming a room the client does not know. *)
Definition strayMember : MatrixEvent :=
  {| getId := Some "$stray"; getType := "org.matrix.msc3401.call.member";
     getRoomId := Some "!nowhere:example.org"; isDecryptionFailure := false;
     decryptionFailureReason := None |}.

(** The client before room A is known to it. *)
Definition worldBeforeA : RefWorld :=
  {| refRooms := Some [roomB; roomC]; refUndecryptable := [] |}.

(** A manager started on the client that knows the three rooms, and one
    started before room A was known. *)
Definition started : Manager.State := Manager.start world Manager.init.
Definition startedBeforeA : Manager.State := Manager.start worldBeforeA Manager.init.

(** The retry timer the manager sets for [keysEvent] while the keys are
    missing. *)
Definition keysRetry : Timeout :=
  {| timeoutEvent :=
       {| getId := Some "$keys"; getType := "io.element.call.encryption_keys";
          getRoomId := Some "!a:example.org"; isDecryptionFailure := true;
          decryptionFailureReason := Some "MEGOLM_UNKNOWN_INBOUND_SESSION_ID" |};
     timeoutIsRetry := true;
     timeoutDelay := 1000 |}.

(** A started manager that received [keysEvent] without the keys and was
    stopped before the retry timer went off. *)
Definition stoppedWithPendingRetry : Manager.State :=
  Manager.stop world (Manager.onTimeline worldNoKeys keysEvent started).

(** Some inputs handled while the manager runs: room A appears again, a
    member event arrives for it, a keys event arrives without its keys and
    its retry goes off once the keys are there. *)
Definition busyTrace : list (RefWorld * Manager.Input) :=
  [ (world, Manager.RoomAppeared roomA);
    (world, Manager.RoomStateEvent
              {| getId := Some "$member"; getType := "org.matrix.msc3401.call.member";
                 getRoomId := Some "!a:example.org"; isDecryptionFailure := false;
                 decryptionFailureReason := None |});
    (worldNoKeys, Manager.TimelineEvent keysEvent);
    (world, Manager.RetryFired keysRetry);
    (world, Manager.CallGetRoomSession roomB) ].

(** The started manager after [keysEvent] arrived without its keys: one
    retry is pending. *)
Definition startedWithRetry : Manager.State :=
  Manager.onTimeline worldNoKeys keysEvent started.

(** The manager started before room A was known, after room A appeared. *)
Definition startedThenA : Manager.State :=
  Manager.onRoom world roomA startedBeforeA.

(** Room A once everybody has left the call, and the client at that time. *)
Definition roomAEmpty : RefRoom :=
  {| refRoomId := "!a:example.org"; refRoomMemberships := [] |}.

Definition worldAEmpty : RefWorld :=
  {| refRooms := Some [roomAEmpty; roomB; roomC]; refUndecryptable := [] |}.

(** A call-member state event of room A. *)
Definition memberEventA : MatrixEvent :=
  {| getId := Some "$member"; getType := "org.matrix.msc3401.call.member";
     getRoomId := Some "!a:example.org"; isDecryptionFailure := false;
     decryptionFailureReason := None |}.

(** The call in room A ends, starts again, goes on, and ends again, with a
    keys event, keys given to the session of room A from outside the manager
    and a lookup in between. *)
Definition callTrace : list (RefWorld * Manager.Input) :=
  [ (worldAEmpty, Manager.RoomStateEvent memberEventA);
    (world, Manager.RoomStateEvent memberEventA);
    (world, Manager.TimelineEvent keysEvent);
    (world, Manager.SessionChanged 0 (refCallEncryption world keysEvent));
    (world, Manager.RoomStateEvent memberEventA);
    (world, Manager.CallGetRoomSession roomB);
    (worldAEmpty, Manager.RoomAppeared roomAEmpty) ].

(** Somebody who holds a session object removes all its members. *)
Definition refLeaveAll (sess : RefSession) : RefSession :=
  {| refSessionRoom := refSessionRoom sess;
     refSessionMemberships := [];
     refSessionKeys := refSessionKeys sess;
     refSessionStopped := refSessionStopped sess |}.

(** Room A appears with its call on, the members of its session object
    (object 2) are removed from outside the manager, and a call-member event
    arrives while the room state still announces the member. *)
Definition outsideTrace : list (RefWorld * Manager.Input) :=
  [ (world, Manager.RoomAppeared roomA);
    (world, Manager.SessionChanged 2 refLeaveAll);
    (world, Manager.RoomStateEvent memberEventA) ].

(** Inputs among which no room appears and no call member changes. *)
Definition quietTrace : list (RefWorld * Manager.Input) :=
  [ (world, Manager.CallStart);
    (worldNoKeys, Manager.TimelineEvent keysEvent);
    (world, Manager.RetryFired keysRetry);
    (world, Manager.RoomStateEvent messageEvent);
    (world, Manager.CallGetRoomSession roomC);
    (world, Manager.CallStop) ].

End Reference.

(** * Properties of the manager *)

Import Manager.

Section Facts.
Context `{E : External}.

Implicit Types (s : State) (w : World) (room : Room) (event : MatrixEvent).

(** ** Elementary facts about the state primitives *)

Lemma membershipsLength_heap s1 s2 l :
  heap s1 = heap s2 → membershipsLength s1 l = membershipsLength s2 l.
Proof. unfold membershipsLength. by intros ->. Qed.

Lemma getRoomSession_known w room s l :
  roomSessions s !! roomId room = Some l → getRoomSession w room s = (l, s).
Proof. unfold getRoomSession. by intros ->. Qed.

Lemma getRoomSession_new w room s :
  roomSessions s !! roomId room = None →
  getRoomSession w room s =
    (length (heap s),
     mkState (<[roomId room := length (heap s)]> (roomSessions s))
             (heap s ++ [roomSessionForRoom w room])
             (listeners s) (emitted s) (calls s) (logs s) (timers s)).
Proof. unfold getRoomSession. by intros ->. Qed.

Lemma getRoomSession_registered w room s :
  roomSessions (getRoomSession w room s).2 !! roomId room
  = Some (getRoomSession w room s).1.
Proof.
  destruct (roomSessions s !! roomId room) as [l|] eqn:Hl.
  - by rewrite (getRoomSession_known _ _ _ l).
  - rewrite getRoomSession_new by done. simpl. apply lookup_insert_eq.
Qed.

(** ** getRoomSession *)

(** C10: the creating lookup emits nothing, invokes nothing on any session,
    writes no log line and sets no timer.  When the room is registered the
    state is left as it was and the registered object is returned; when it is
    not, the one effect is that a new session object is created from the room
    (whatever its initial membership) and entered under the room identifier. *)
Theorem getRoomSession_frame w room s :
  let l := (getRoomSession w room s).1 in
  let s' := (getRoomSession w room s).2 in
  emitted s' = emitted s ∧ calls s' = calls s ∧ logs s' = logs s
  ∧ timers s' = timers s ∧ listeners s' = listeners s
  ∧ match roomSessions s !! roomId room with
    | Some l0 => l = l0 ∧ s' = s
    | None =>
        l = length (heap s)
        ∧ heap s' = heap s ++ [roomSessionForRoom w room]
        ∧ roomSessions s' = <[roomId room := l]> (roomSessions s)
    end.
Proof.
  intros l s'. subst l s'.
  destruct (roomSessions s !! roomId room) as [l0|] eqn:Hl.
  - rewrite (getRoomSession_known _ _ _ l0) by done. simpl. by repeat split.
  - rewrite getRoomSession_new by done. simpl. by repeat split.
Qed.

(** ** refreshRoom *)


(** C3 (as amended): a room that is first seen through the room-appeared
    event (it has no registry entry yet) gets a new session object; the
    handler never emits [SessionEnded], and it emits [SessionStarted] exactly
    when that session has members once [onRTCSessionMemberUpdate] has run. *)
Theorem onRoom_first_sight w room s :
  roomSessions s !! roomId room = None →
  let s' := onRoom w room s in
  let sess := length (heap s) in
  roomSessions s' !! roomId room = Some sess
  ∧ heap s' !! sess = Some (onRTCSessionMemberUpdate w (roomSessionForRoom w room))
  ∧ emitted s' = emitted s ++
      if bool_decide
           (0 < length (memberships (onRTCSessionMemberUpdate w (roomSessionForRoom w room))))
      then [{| emKind := SessionStarted; emRoomId := roomId room; emSession := Some sess |}]
      else [].
Proof.
  intros Hnew s' sess. subst s' sess.
  unfold onRoom, refreshRoom.
  rewrite getRoomSession_new by done. rewrite Hnew. simpl.
  rewrite andb_false_r. simpl.
  set (s1 := mkState _ _ _ _ _ _ _).
  set (s2 := invoke (length (heap s)) Call_onRTCSessionMemberUpdate
               (onRTCSessionMemberUpdate w) s1).
  assert (Hobj : heap s2 !! length (heap s)
                 = Some (onRTCSessionMemberUpdate w (roomSessionForRoom w room))).
  { subst s2 s1. simpl. rewrite list_lookup_alter_eq.
    by rewrite list_lookup_middle. }
  assert (Hlen : membershipsLength s2 (length (heap s))
                 = length (memberships (onRTCSessionMemberUpdate w (roomSessionForRoom w room)))).
  { unfold membershipsLength. by rewrite Hobj. }
  rewrite Hlen.
  destruct (bool_decide (0 < _)); simpl; rewrite ?lookup_insert_eq, ?app_nil_r;
    repeat split; try done; apply lookup_insert_eq.
Qed.

(** ** consumeCallEncryptionEvent *)

Lemma getRoomSession_loc w room s1 s2 :
  roomSessions s1 = roomSessions s2 → length (heap s1) = length (heap s2) →
  (getRoomSession w room s1).1 = (getRoomSession w room s2).1.
Proof.
  intros Hreg Hlen. unfold getRoomSession. rewrite Hreg.
  destruct (roomSessions s2 !! roomId room); simpl; [done|].
  by rewrite Hlen.
Qed.

Lemma getRoomSession_calls w room s :
  calls (getRoomSession w room s).2 = calls s.
Proof. unfold getRoomSession. by destruct (roomSessions s !! roomId room). Qed.

Lemma getRoomSession_timers w room s :
  timers (getRoomSession w room s).2 = timers s.
Proof. unfold getRoomSession. by destruct (roomSessions s !! roomId room). Qed.

Lemma getRoomSession_logs w room s :
  logs (getRoomSession w room s).2 = logs s.
Proof. unfold getRoomSession. by destruct (roomSessions s !! roomId room). Qed.

Lemma getRoomSession_emitted w room s :
  emitted (getRoomSession w room s).2 = emitted s.
Proof. unfold getRoomSession. by destruct (roomSessions s !! roomId room). Qed.

Lemma getRoomSession_listeners w room s :
  listeners (getRoomSession w room s).2 = listeners s.
Proof. unfold getRoomSession. by destruct (roomSessions s !! roomId room). Qed.

(** The calls one attempt makes once decryption has succeeded: one
    [onCallEncryption] on the room's session for a control event of a known
    room, none otherwise. *)
Lemma consume_decrypted_calls w event isRetry s :
  isDecryptionFailure (decryptEventIfNeeded w event) = false →
  let ev := decryptEventIfNeeded w event in
  let s' := consumeCallEncryptionEvent w event isRetry s in
  timers s' = timers s
  ∧ calls s' = calls s ++
      if bool_decide (getType ev = CallEncryptionKeysPrefix) then
        match getRoom w (getRoomId ev) with
        | Some room => [((getRoomSession w room s).1, Call_onCallEncryption ev)]
        | None => []
        end
      else [].
Proof.
  intros Hok ev s'. subst ev s'. unfold consumeCallEncryptionEvent.
  rewrite Hok.
  set (ev := decryptEventIfNeeded w event).
  set (s1 := if isRetry then _ else s).
  assert (Hs1 : roomSessions s1 = roomSessions s ∧ heap s1 = heap s
                ∧ calls s1 = calls s ∧ timers s1 = timers s).
  { subst s1. by destruct isRetry. }
  destruct Hs1 as (Hreg & Hheap & Hcalls & Htimers).
  destruct (decide (getType ev = CallEncryptionKeysPrefix)) as [Hty|Hty].
  - rewrite (bool_decide_eq_false_2 (getType ev ≠ _)) by tauto.
    rewrite (bool_decide_eq_true_2 (getType ev = _)) by done.
    destruct (getRoom w (getRoomId ev)) as [room|].
    + destruct (getRoomSession w room s1) as [sess s2] eqn:Hget. simpl.
      assert (Hsess : sess = (getRoomSession w room s).1).
      { change sess with (sess, s2).1. rewrite <- Hget.
        apply getRoomSession_loc; [done | by rewrite Hheap]. }
      assert (Hs2 : calls s2 = calls s ∧ timers s2 = timers s).
      { change s2 with (sess, s2).2. rewrite <- Hget.
        by rewrite getRoomSession_calls, getRoomSession_timers. }
      destruct Hs2 as [-> ->]. by rewrite Hsess.
    + simpl. by rewrite app_nil_r.
  - rewrite (bool_decide_eq_true_2 (getType ev ≠ _)) by done.
    rewrite (bool_decide_eq_false_2 (getType ev = _)) by done.
    by rewrite app_nil_r.
Qed.

(** What one attempt does when decryption has failed: a warning, and on the
    first attempt one timer of 1000 ms for the retry; nothing else. *)
Lemma consume_failed w event isRetry s :
  isDecryptionFailure (decryptEventIfNeeded w event) = true →
  let ev := decryptEventIfNeeded w event in
  consumeCallEncryptionEvent w event isRetry s =
    if isRetry then log LogWarn (decryptionFailedMessage ev) s
    else setTimeout ev true 1000
           (log LogWarn (decryptionFailedMessage ev +:+ " will retry once only") s).
Proof.
  intros Hfail ev. subst ev. unfold consumeCallEncryptionEvent.
  rewrite Hfail. by destruct isRetry.
Qed.

(** C4: a timeline event followed to its end.  When the first decryption
    attempt fails, that attempt sets exactly one timer, of 1000 ms and marked
    as a retry, writes one warning and dispatches nothing.  The retry sets no
    timer: when decryption fails again it writes the second warning and
    dispatches nothing, so the event is dropped; when decryption then
    succeeds, [onCallEncryption] is dispatched once on the room's session if
    the event is a control event of a known room, and not at all otherwise.
    When the first attempt succeeds no timer is set and the same single
    dispatch happens at once. *)
Theorem timeline_at_most_one_retry w1 w2 event s :
  let ev1 := decryptEventIfNeeded w1 event in
  let ev2 := decryptEventIfNeeded w2 ev1 in
  let first := onTimeline w1 event s in
  let final := timelineToCompletion w1 w2 event s in
  let dispatch (w : World) (ev : MatrixEvent) :=
    if bool_decide (getType ev = CallEncryptionKeysPrefix) then
      match getRoom w (getRoomId ev) with
      | Some room => [((getRoomSession w room s).1, Call_onCallEncryption ev)]
      | None => []
      end
    else [] in
  if isDecryptionFailure ev1 then
    timers first = timers s ++
      [{| timeoutEvent := ev1; timeoutIsRetry := true; timeoutDelay := 1000 |}]
    ∧ calls first = calls s
    ∧ logs first = logs s ++
        [(LogWarn, decryptionFailedMessage ev1 +:+ " will retry once only")]
    ∧ timers final = timers first
    ∧ if isDecryptionFailure ev2 then
        calls final = calls s
        ∧ logs final = logs first ++ [(LogWarn, decryptionFailedMessage ev2)]
      else
        calls final = calls s ++ dispatch w2 ev2
  else
    final = first
    ∧ timers first = timers s
    ∧ calls first = calls s ++ dispatch w1 ev1.
Proof.
  intros ev1 ev2 first final dispatch.
  subst first final. unfold timelineToCompletion, onTimeline.
  destruct (isDecryptionFailure ev1) eqn:H1.
  - rewrite (consume_failed w1 event false s H1). fold ev1.
    set (s1 := setTimeout ev1 true 1000 _).
    assert (Hdrop : drop (length (timers s)) (timers s1)
                    = [{| timeoutEvent := ev1; timeoutIsRetry := true;
                          timeoutDelay := 1000 |}]).
    { subst s1. simpl. by rewrite drop_app_length. }
    rewrite Hdrop. simpl. unfold fireTimeout. simpl.
    destruct (isDecryptionFailure ev2) eqn:H2.
    + rewrite (consume_failed w2 ev1 true s1 H2). by subst s1.
    + destruct (consume_decrypted_calls w2 ev1 true s1 H2) as [Ht Hc].
      fold ev2 in Hc. rewrite Ht, Hc. subst s1 dispatch. simpl.
      repeat split; try done.
      destruct (bool_decide (getType ev2 = CallEncryptionKeysPrefix)); [|done].
      destruct (getRoom w2 (getRoomId ev2)) as [room|]; [|done].
      do 3 f_equal. by apply getRoomSession_loc.
  - destruct (consume_decrypted_calls w1 event false s H1) as [Ht Hc].
    fold ev1 in Hc. rewrite Ht, drop_all. by subst dispatch.
Qed.

(** C8 (as amended): a timeline event whose type, once decryption has been
    attempted, is not the control type leaves the registry, the session
    objects, the emitted notifications and the listeners as they were and
    invokes nothing on any session.  A timer is set exactly when decryption
    failed on a first attempt; the type plays no part in that. *)
Theorem consumeCallEncryptionEvent_other_type w event isRetry s :
  getType (decryptEventIfNeeded w event) ≠ CallEncryptionKeysPrefix →
  let ev := decryptEventIfNeeded w event in
  let s' := consumeCallEncryptionEvent w event isRetry s in
  core s' = core s
  ∧ timers s' = timers s ++
      if isDecryptionFailure ev && negb isRetry
      then [{| timeoutEvent := ev; timeoutIsRetry := true; timeoutDelay := 1000 |}]
      else [].
Proof.
  intros Hty ev s'. subst s'.
  destruct (isDecryptionFailure ev) eqn:Hfail.
  - rewrite (consume_failed w event isRetry s Hfail). fold ev.
    destruct isRetry; simpl; by rewrite ?app_nil_r.
  - unfold consumeCallEncryptionEvent. fold ev. rewrite Hfail.
    rewrite (bool_decide_eq_true_2 (getType ev ≠ _)) by done.
    destruct isRetry; simpl; by rewrite ?app_nil_r.
Qed.

(** ** stop *)

Lemma foldl_invoke_frame w (ls : list loc) s :
  let s' := foldl (λ s0 l, invoke l Call_stop (sessionStop w) s0) s ls in
  roomSessions s' = roomSessions s ∧ listeners s' = listeners s
  ∧ emitted s' = emitted s ∧ logs s' = logs s ∧ timers s' = timers s
  ∧ length (heap s') = length (heap s)
  ∧ calls s' = calls s ++ ((λ l, (l, Call_stop)) <$> ls).
Proof.
  revert s. induction ls as [|l ls IH]; intros s; simpl.
  - by rewrite app_nil_r.
  - destruct (IH (invoke l Call_stop (sessionStop w) s))
      as (Hr & Hl & He & Hlog & Ht & Hh & Hc).
    simpl in *. rewrite Hr, Hl, He, Hlog, Ht, Hh, Hc, length_alter.
    by rewrite <- app_assoc.
Qed.

Lemma stop_registry w s : roomSessions (stop w s) = ∅.
Proof. done. Qed.

Lemma stop_heap_length w s : length (heap (stop w s)) = length (heap s).
Proof.
  unfold stop. simpl.
  by destruct (foldl_invoke_frame w (sessionValues s) s) as (_&_&_&_&_&->&_).
Qed.

(** C9 (as amended): when a retry timer goes off after [stop] has returned,
    the retry emits nothing, sets no timer and registers no listener.  It
    leaves the registry empty when decryption fails again, when the event is
    not a control event or when its room is unknown; for a decrypted control
    event of a known room it goes through [getRoomSession], which enters a
    newly created session object for that room in the emptied registry, and
    [onCallEncryption] is invoked on that object. *)
Theorem retry_after_stop w w' event s :
  let stopped := stop w s in
  let ev := decryptEventIfNeeded w' event in
  let s' := consumeCallEncryptionEvent w' event true stopped in
  let reaches :=
    if isDecryptionFailure ev then None
    else if bool_decide (getType ev = CallEncryptionKeysPrefix)
         then getRoom w' (getRoomId ev) else None in
  roomSessions stopped = ∅
  ∧ emitted s' = emitted stopped
  ∧ timers s' = timers stopped
  ∧ listeners s' = listeners stopped
  ∧ match reaches with
    | None => roomSessions s' = ∅ ∧ calls s' = calls stopped
    | Some room =>
        roomSessions s' = {[ roomId room := length (heap s) ]}
        ∧ heap s' !! length (heap s)
          = Some (onCallEncryption w' ev (roomSessionForRoom w' room))
        ∧ calls s' = calls stopped ++ [(length (heap s), Call_onCallEncryption ev)]
    end.
Proof.
  intros stopped ev s' reaches.
  assert (Hreg : roomSessions stopped = ∅) by apply stop_registry.
  assert (Hlen : length (heap stopped) = length (heap s)) by apply stop_heap_length.
  clearbody stopped. subst s' reaches.
  destruct (isDecryptionFailure ev) eqn:Hfail.
  - rewrite (consume_failed w' event true stopped Hfail). by simpl.
  - unfold consumeCallEncryptionEvent. fold ev. rewrite Hfail.
    set (s1 := log LogInfo _ stopped).
    destruct (decide (getType ev = CallEncryptionKeysPrefix)) as [Hty|Hty].
    + rewrite (bool_decide_eq_false_2 (getType ev ≠ _)) by tauto.
      rewrite (bool_decide_eq_true_2 (getType ev = _)) by done.
      destruct (getRoom w' (getRoomId ev)) as [room|].
      * rewrite getRoomSession_new by (subst s1; simpl; by rewrite Hreg).
        subst s1. simpl. rewrite Hreg, Hlen.
        repeat split; try done.
        rewrite <- Hlen, list_lookup_alter_eq. by rewrite list_lookup_middle.
      * by simpl.
    + rewrite (bool_decide_eq_true_2 (getType ev ≠ _)) by done.
      rewrite (bool_decide_eq_false_2 (getType ev = _)) by done.
      by simpl.
Qed.

(** ** start *)

Lemma seedRoom_unfold w s room :
  seedRoom w s room =
    mkState (if bool_decide (0 < length (memberships (roomSessionForRoom w room)))
             then <[roomId room := length (heap s)]> (roomSessions s)
             else roomSessions s)
            (heap s ++ [roomSessionForRoom w room])
            (listeners s) (emitted s) (calls s) (logs s) (timers s).
Proof. unfold seedRoom. simpl. by case_bool_decide. Qed.

Lemma seed_frame w (rooms : list Room) s :
  let s' := foldl (seedRoom w) s rooms in
  listeners s' = listeners s ∧ emitted s' = emitted s ∧ calls s' = calls s
  ∧ logs s' = logs s ∧ timers s' = timers s
  ∧ heap s' = heap s ++ (roomSessionForRoom w <$> rooms).
Proof.
  revert s. induction rooms as [|room rooms IH]; intros s; simpl.
  - by rewrite app_nil_r.
  - destruct (IH (seedRoom w s room)) as (Hl & He & Hc & Hlog & Ht & Hh).
    rewrite Hl, He, Hc, Hlog, Ht, Hh, seedRoom_unfold. simpl.
    by rewrite <- app_assoc.
Qed.

(** Rooms without members leave the entry of their identifier alone. *)
Lemma seed_registry_frame w (rooms : list Room) s rid :
  (∀ room, room ∈ rooms → roomId room = rid →
     length (memberships (roomSessionForRoom w room)) = 0) →
  roomSessions (foldl (seedRoom w) s rooms) !! rid = roomSessions s !! rid.
Proof.
  revert s. induction rooms as [|room rooms IH]; intros s Hnone; simpl; [done|].
  rewrite IH by (intros r Hr; apply Hnone; by right).
  rewrite seedRoom_unfold. simpl. case_bool_decide as Hmem; [|done].
  destruct (decide (roomId room = rid)) as [Heq|Hne].
  - specialize (Hnone room (list_elem_of_here _ _) Heq). lia.
  - by rewrite lookup_insert_ne.
Qed.

(** Rooms with members end up registered with a session that has members. *)
Lemma seed_registry_members w (rooms : list Room) s room :
  room ∈ rooms →
  0 < length (memberships (roomSessionForRoom w room)) →
  let s' := foldl (seedRoom w) s rooms in
  ∃ l o, roomSessions s' !! roomId room = Some l
         ∧ heap s' !! l = Some o ∧ 0 < length (memberships o).
Proof.
  intros Hin Hmem. simpl.
  induction rooms as [|r rooms IH] using rev_ind; [by apply elem_of_nil in Hin|].
  rewrite foldl_snoc. rewrite seedRoom_unfold. simpl.
  set (s1 := foldl (seedRoom w) s rooms) in *.
  case_bool_decide as Hr.
  - destruct (decide (roomId r = roomId room)) as [Heq|Hne].
    + exists (length (heap s1)), (roomSessionForRoom w r).
      rewrite <- Heq, lookup_insert_eq. by rewrite list_lookup_middle.
    + apply elem_of_app in Hin as [Hin|Hin%list_elem_of_singleton]; [|by subst].
      destruct (IH Hin) as (l & o & Hl & Ho & Hlen).
      exists l, o. rewrite lookup_insert_ne by done.
      repeat split; try done.
      rewrite lookup_app_l; [done | by eapply lookup_lt_Some].
  - apply elem_of_app in Hin as [Hin|Hin%list_elem_of_singleton]; [|subst; lia].
    destruct (IH Hin) as (l & o & Hl & Ho & Hlen).
    exists l, o. repeat split; try done.
    rewrite lookup_app_l; [done | by eapply lookup_lt_Some].
Qed.

(** C7 (as amended): [start] emits nothing and invokes nothing on any
    session.  It first goes through the rooms the client knows, creating a
    session object for each and registering it only when it has at least one
    member, and then adds the three listeners.  After [start], every known
    room whose session had members is registered with a session that has
    members; a room identifier all of whose known rooms have no member keeps
    the entry it had before, so a room without members that was not
    registered is still not registered. *)
Theorem start_seeds_rooms_with_members w s :
  let rooms := default [] (getRooms w) in
  let seeded := foldl (seedRoom w) s rooms in
  let s' := start w s in
  emitted s' = emitted s ∧ calls s' = calls s
  ∧ listeners seeded = listeners s
  ∧ roomSessions s' = roomSessions seeded
  ∧ listeners s' = listeners s ++
      [ClientEvent_Room; RoomEvent_Timeline; RoomStateEvent_Events]
  ∧ (∀ room, room ∈ rooms →
       0 < length (memberships (roomSessionForRoom w room)) →
       ∃ l o, roomSessions s' !! roomId room = Some l
              ∧ heap s' !! l = Some o ∧ 0 < length (memberships o))
  ∧ (∀ rid,
       (∀ room, room ∈ rooms → roomId room = rid →
          length (memberships (roomSessionForRoom w room)) = 0) →
       roomSessions s' !! rid = roomSessions s !! rid).
Proof.
  intros rooms seeded s'. subst s'. unfold start. fold rooms. fold seeded.
  destruct (seed_frame w rooms s) as (Hl & He & Hc & _ & _ & _).
  fold seeded in Hl, He, Hc. simpl.
  rewrite Hl, He, Hc, <- !app_assoc. simpl.
  repeat split; try done.
  - intros room Hin Hmem. by apply seed_registry_members.
  - intros rid Hnone. by apply seed_registry_frame.
Qed.

(** ** Invariants of reachable states *)

(** Steps that keep the registry, the number of objects and the listeners
    keep the invariants. *)
Lemma wellFormed_shape s s' :
  roomSessions s' = roomSessions s → length (heap s') = length (heap s) →
  listeners s' = listeners s → wellFormed s → wellFormed s'.
Proof.
  intros Hr Hh Hl (Hinj & Hbound & Hsub).
  unfold wellFormed, registryInjective, registryBound, subscribedOnce.
  rewrite Hr, Hh, Hl. done.
Qed.

Lemma wellFormed_register s rid o :
  wellFormed s →
  wellFormed (mkState (<[rid := length (heap s)]> (roomSessions s)) (heap s ++ [o])
                      (listeners s) (emitted s) (calls s) (logs s) (timers s)).
Proof.
  intros (Hinj & Hbound & Hsub).
  unfold wellFormed, registryInjective, registryBound, subscribedOnce. simpl.
  repeat split.
  - intros r1 r2 l. rewrite !lookup_insert.
    repeat case_decide; subst; try done.
    + intros [= <-] H2. apply Hbound in H2. lia.
    + intros H1 [= <-]. apply Hbound in H1. lia.
    + apply Hinj.
  - intros r l. rewrite lookup_insert, length_app. simpl.
    case_decide.
    + intros [= <-]. lia.
    + intros Hl%Hbound. lia.
  - done.
Qed.

Lemma wellFormed_allocate s o :
  wellFormed s →
  wellFormed (mkState (roomSessions s) (heap s ++ [o])
                      (listeners s) (emitted s) (calls s) (logs s) (timers s)).
Proof.
  intros (Hinj & Hbound & Hsub).
  unfold wellFormed, registryInjective, registryBound, subscribedOnce. simpl.
  repeat split; try done.
  intros r l Hl%Hbound. rewrite length_app. simpl. lia.
Qed.

Lemma wellFormed_getRoomSession w room s :
  wellFormed s → wellFormed (getRoomSession w room s).2.
Proof.
  intros Hwf.
  destruct (roomSessions s !! roomId room) as [l|] eqn:Hl.
  - by rewrite (getRoomSession_known _ _ _ l).
  - rewrite getRoomSession_new by done. simpl. by apply wellFormed_register.
Qed.

Lemma wellFormed_invoke l c f s : wellFormed s → wellFormed (invoke l c f s).
Proof. apply wellFormed_shape; simpl; try done. apply length_alter. Qed.

Lemma wellFormed_refreshRoom w room s :
  wellFormed s → wellFormed (refreshRoom w room s).
Proof.
  intros Hwf. unfold refreshRoom.
  pose proof (wellFormed_getRoomSession w room s Hwf) as Hget.
  destruct (getRoomSession w room s) as [sess s1]. simpl in Hget.
  pose proof (wellFormed_invoke sess Call_onRTCSessionMemberUpdate
                (onRTCSessionMemberUpdate w) s1 Hget) as Hinv.
  repeat case_match; try done;
    (eapply wellFormed_shape; [..|exact Hinv]; done).
Qed.

Lemma wellFormed_consume w event isRetry s :
  wellFormed s → wellFormed (consumeCallEncryptionEvent w event isRetry s).
Proof.
  intros Hwf. unfold consumeCallEncryptionEvent.
  set (ev := decryptEventIfNeeded w event).
  destruct (isDecryptionFailure ev).
  - destruct isRetry; simpl; (eapply wellFormed_shape; [..|exact Hwf]; done).
  - set (s1 := if isRetry then _ else s).
    assert (Hwf1 : wellFormed s1).
    { subst s1. destruct isRetry; [|done].
      eapply wellFormed_shape; [..|exact Hwf]; done. }
    clearbody s1. case_bool_decide; [done|].
    destruct (getRoom w (getRoomId ev)) as [room|].
    + pose proof (wellFormed_getRoomSession w room s1 Hwf1) as Hget.
      destruct (getRoomSession w room s1) as [sess s2]. simpl in Hget.
      by apply wellFormed_invoke.
    + eapply wellFormed_shape; [..|exact Hwf1]; done.
Qed.

Lemma wellFormed_onRoomState w event s :
  wellFormed s → wellFormed (onRoomState w event s).
Proof.
  intros Hwf. unfold onRoomState.
  destruct (getRoom w (getRoomId event)) as [room|].
  - case_bool_decide; [by apply wellFormed_refreshRoom | done].
  - eapply wellFormed_shape; [..|exact Hwf]; done.
Qed.

Lemma wellFormed_seed w (rooms : list Room) s :
  wellFormed s → wellFormed (foldl (seedRoom w) s rooms).
Proof.
  revert s. induction rooms as [|room rooms IH]; intros s Hwf; simpl; [done|].
  apply IH. rewrite seedRoom_unfold.
  case_bool_decide; [by apply wellFormed_register | by apply wellFormed_allocate].
Qed.

Lemma wellFormed_start w s :
  wellFormed s → listeners s = [] → wellFormed (start w s).
Proof.
  intros Hwf Hnone. unfold start.
  set (s1 := foldl (seedRoom w) s (default [] (getRooms w))).
  destruct (wellFormed_seed w (default [] (getRooms w)) s Hwf) as (Hinj & Hbound & _).
  fold s1 in Hinj, Hbound.
  destruct (seed_frame w (default [] (getRooms w)) s) as (Hl & _).
  fold s1 in Hl.
  repeat split; try done.
  right. simpl. by rewrite Hl, Hnone.
Qed.

Lemma stop_listeners w s :
  subscribedOnce s → listeners (stop w s) = [].
Proof.
  intros Hsub. unfold stop. simpl.
  destruct (foldl_invoke_frame w (sessionValues s) s) as (_ & -> & _).
  by destruct Hsub as [-> | ->].
Qed.

Lemma wellFormed_stop w s : wellFormed s → wellFormed (stop w s).
Proof.
  intros (Hinj & Hbound & Hsub). repeat split.
  - intros r1 r2 l. by rewrite stop_registry, lookup_empty.
  - intros r l. by rewrite stop_registry, lookup_empty.
  - left. by apply stop_listeners.
Qed.

Lemma wellFormed_step w i s :
  whileRunning i = true → wellFormed s → wellFormed (step w i s).
Proof.
  intros Hrun Hwf. destruct i; simpl in *; try done.
  - by apply wellFormed_getRoomSession.
  - by apply wellFormed_refreshRoom.
  - by apply wellFormed_consume.
  - by apply wellFormed_onRoomState.
  - by apply wellFormed_consume.
  - eapply wellFormed_shape; [..|exact Hwf]; [done|apply length_alter|done].
Qed.

Lemma reachable_wellFormed s : reachable s → wellFormed s.
Proof.
  induction 1 as [|w s _ IH Hl|w s _ IH|w i s _ IH Hrun].
  - repeat split; [intros r1 r2 l|intros r l|by left]; simpl; by rewrite lookup_empty.
  - by apply wellFormed_start.
  - by apply wellFormed_stop.
  - by apply wellFormed_step.
Qed.

(** In a well-formed state the registered session objects are pairwise
    distinct. *)
Lemma sessionValues_NoDup s : registryInjective s → NoDup (sessionValues s).
Proof.
  intros Hinj. unfold sessionValues.
  apply NoDup_fmap_2_strong; [|apply NoDup_map_to_list].
  intros [r1 l1] [r2 l2] H1%elem_of_map_to_list H2%elem_of_map_to_list.
  simpl. intros <-. f_equal. by eapply Hinj.
Qed.

Lemma elem_of_sessionValues s l :
  l ∈ sessionValues s ↔ ∃ rid, roomSessions s !! rid = Some l.
Proof.
  unfold sessionValues. rewrite list_elem_of_fmap. split.
  - intros ([rid l'] & -> & Hin%elem_of_map_to_list). by exists rid.
  - intros [rid Hl]. exists (rid, l). by rewrite elem_of_map_to_list.
Qed.

(** Stopping pairwise distinct objects applies [stop] once to each of them
    and leaves the other objects alone. *)
Lemma foldl_invoke_heap w (ls : list loc) s j :
  NoDup ls →
  heap (foldl (λ s0 l, invoke l Call_stop (sessionStop w) s0) s ls) !! j
  = if decide (j ∈ ls) then sessionStop w <$> heap s !! j else heap s !! j.
Proof.
  intros Hnd. revert s. induction Hnd as [|l ls Hnotin Hnd IH]; intros s; cbn [foldl].
  - case_decide as Hin; [by apply elem_of_nil in Hin | done].
  - rewrite IH. cbn [heap invoke].
    destruct (decide (j = l)) as [->|Hne].
    + rewrite list_lookup_alter_eq.
      repeat case_decide; try done. exfalso. auto using list_elem_of_here.
    + rewrite list_lookup_alter_ne by done.
      repeat case_decide; try done.
      * exfalso. auto using list_elem_of_further.
      * exfalso. match goal with H : j ∈ l :: ls |- _ =>
          apply elem_of_cons in H as [?|?]; done end.
Qed.

(** C5: let the manager be in a state it can reach and let it hold N
    entries.  After [stop] the registry is empty, no listener of the manager
    is left on the client, and [stop] has been invoked on the tracked
    session objects, N pairwise distinct ones, once each and on no others. *)
Theorem stop_clears_state w s :
  reachable s →
  let s' := stop w s in
  roomSessions s' = ∅ ∧ size (roomSessions s') = 0
  ∧ listeners s' = []
  ∧ calls s' = calls s ++ ((λ l, (l, Call_stop)) <$> sessionValues s)
  ∧ NoDup (sessionValues s)
  ∧ length (sessionValues s) = size (roomSessions s)
  ∧ (∀ l, l ∈ sessionValues s ↔ ∃ rid, roomSessions s !! rid = Some l)
  ∧ (∀ l, heap s' !! l =
          if decide (l ∈ sessionValues s)
          then sessionStop w <$> heap s !! l else heap s !! l).
Proof.
  intros Hreach s'. subst s'.
  destruct (reachable_wellFormed s Hreach) as (Hinj & Hbound & Hsub).
  pose proof (sessionValues_NoDup s Hinj) as Hnd.
  repeat split.
  - by apply stop_listeners.
  - unfold stop. simpl.
    by destruct (foldl_invoke_frame w (sessionValues s) s) as (_&_&_&_&_&_&->).
  - done.
  - unfold sessionValues. by rewrite length_fmap, length_map_to_list.
  - by intros ?%elem_of_sessionValues.
  - by intros ?%elem_of_sessionValues.
  - intros l. unfold stop. simpl. by apply foldl_invoke_heap.
Qed.

(** ** Registry entries are never replaced while the manager runs *)

Lemma getRoomSession_subseteq w room s :
  roomSessions s ⊆ roomSessions (getRoomSession w room s).2.
Proof.
  destruct (roomSessions s !! roomId room) as [l|] eqn:Hl.
  - by rewrite (getRoomSession_known _ _ _ l).
  - rewrite getRoomSession_new by done. simpl. by apply insert_subseteq.
Qed.

Lemma refreshRoom_registry w room s :
  roomSessions (refreshRoom w room s) = roomSessions (getRoomSession w room s).2.
Proof.
  unfold refreshRoom. destruct (getRoomSession w room s) as [sess s1].
  by repeat case_match.
Qed.

Lemma consume_subseteq w event isRetry s :
  roomSessions s ⊆ roomSessions (consumeCallEncryptionEvent w event isRetry s).
Proof.
  unfold consumeCallEncryptionEvent.
  set (ev := decryptEventIfNeeded w event).
  destruct (isDecryptionFailure ev).
  - by destruct isRetry.
  - set (s1 := if isRetry then _ else s).
    assert (Hs1 : roomSessions s1 = roomSessions s) by (subst s1; by destruct isRetry).
    clearbody s1. rewrite <- Hs1.
    case_bool_decide; [done|].
    destruct (getRoom w (getRoomId ev)) as [room|]; [|done].
    pose proof (getRoomSession_subseteq w room s1) as Hsub.
    by destruct (getRoomSession w room s1) as [sess s2].
Qed.

Lemma step_subseteq w i s :
  whileRunning i = true → roomSessions s ⊆ roomSessions (step w i s).
Proof.
  intros Hrun. destruct i; simpl in *; try done.
  - apply getRoomSession_subseteq.
  - unfold onRoom. rewrite refreshRoom_registry. apply getRoomSession_subseteq.
  - apply consume_subseteq.
  - unfold onRoomState. destruct (getRoom w (getRoomId event)); [|done].
    case_bool_decide; [|done].
    rewrite refreshRoom_registry. apply getRoomSession_subseteq.
  - apply consume_subseteq.
Qed.

Lemma run_subseteq (trace : list (World * Input)) s :
  Forall (λ wi, whileRunning wi.2 = true) trace →
  roomSessions s ⊆ roomSessions (run trace s).
Proof.
  intros Hrun. revert s. induction Hrun as [|[w i] trace Hi _ IH]; intros s; [done|].
  unfold run in *. simpl. etrans; [|apply IH]. by apply step_subseteq.
Qed.

(** X20: once [getRoomSession] has returned a session object for a room,
    that object stays registered under the room identifier through any
    sequence of inputs other than [start] and [stop] (the lookups, the three
    client events, retries, session objects changed from outside), every later
    [getRoomSession] for the same room identifier returns the same object,
    and no entry that existed is replaced by another object.  [start] is
    excluded because it does replace entries. *)
Theorem getRoomSession_identity_stable w room s (trace : list (World * Input)) w' room' :
  Forall (λ wi, whileRunning wi.2 = true) trace →
  roomId room' = roomId room →
  let l := (getRoomSession w room s).1 in
  let s1 := (getRoomSession w room s).2 in
  let s2 := run trace s1 in
  roomSessions s1 !! roomId room = Some l
  ∧ roomSessions s2 !! roomId room = Some l
  ∧ (getRoomSession w' room' s2).1 = l
  ∧ (getRoomSession w' room' s2).2 = s2
  ∧ (∀ rid l0, roomSessions s !! rid = Some l0 → roomSessions s2 !! rid = Some l0).
Proof.
  intros Hrun Hid l s1 s2.
  assert (H1 : roomSessions s1 !! roomId room = Some l)
    by apply getRoomSession_registered.
  assert (H2 : roomSessions s2 !! roomId room = Some l).
  { eapply lookup_weaken; [exact H1|]. by apply run_subseteq. }
  repeat split; try done.
  - rewrite (getRoomSession_known w' room' s2 l); [done | by rewrite Hid].
  - rewrite (getRoomSession_known w' room' s2 l); [done | by rewrite Hid].
  - intros rid l0 Hl0. eapply lookup_weaken; [exact Hl0|].
    etrans; [apply (getRoomSession_subseteq w room)|]. by apply run_subseteq.
Qed.

(** ** The handlers read neither the log nor the timers *)

Lemma core_eq s1 s2 :
  core s1 = core s2 ↔
    roomSessions s1 = roomSessions s2 ∧ heap s1 = heap s2
    ∧ listeners s1 = listeners s2 ∧ emitted s1 = emitted s2 ∧ calls s1 = calls s2.
Proof. unfold core. split; [by intros [= -> -> -> -> ->] | by intros (->&->&->&->&->)]. Qed.

Lemma core_getRoomSession w room s1 s2 :
  core s1 = core s2 →
  (getRoomSession w room s1).1 = (getRoomSession w room s2).1
  ∧ core (getRoomSession w room s1).2 = core (getRoomSession w room s2).2.
Proof.
  intros Hcore. pose proof Hcore as (Hr & Hh & Hl & He & Hc)%core_eq.
  unfold getRoomSession. rewrite Hr.
  destruct (roomSessions s2 !! roomId room); simpl; [done|].
  unfold core. simpl. by rewrite Hr, Hh, Hl, He, Hc.
Qed.

Lemma core_invoke l c f s1 s2 :
  core s1 = core s2 → core (invoke l c f s1) = core (invoke l c f s2).
Proof.
  intros (Hr & Hh & Hl & He & Hc)%core_eq.
  unfold core. simpl. by rewrite Hr, Hh, Hl, He, Hc.
Qed.

Lemma core_emit k rid s1 s2 :
  core s1 = core s2 → core (emit k rid s1) = core (emit k rid s2).
Proof.
  intros (Hr & Hh & Hl & He & Hc)%core_eq.
  unfold core. simpl. by rewrite Hr, Hh, Hl, He, Hc.
Qed.

Lemma core_refreshRoom w room s1 s2 :
  core s1 = core s2 → core (refreshRoom w room s1) = core (refreshRoom w room s2).
Proof.
  intros Hcore. pose proof Hcore as (Hr & _)%core_eq.
  unfold refreshRoom. rewrite Hr.
  destruct (core_getRoomSession w room s1 s2 Hcore) as [Hsess Hget].
  destruct (getRoomSession w room s1) as [sess t1].
  destruct (getRoomSession w room s2) as [sess' t2].
  simpl in Hsess, Hget. subst sess'.
  pose proof Hget as (_ & Hh & _)%core_eq.
  rewrite (membershipsLength_heap t1 t2) by done.
  pose proof (core_invoke sess Call_onRTCSessionMemberUpdate
                (onRTCSessionMemberUpdate w) t1 t2 Hget) as Hinv.
  pose proof Hinv as (_ & Hh' & _)%core_eq.
  rewrite (membershipsLength_heap (invoke _ _ _ t1) (invoke _ _ _ t2)) by done.
  repeat case_match; try done; by apply core_emit.
Qed.

Lemma core_consume w event isRetry s1 s2 :
  core s1 = core s2 →
  core (consumeCallEncryptionEvent w event isRetry s1)
  = core (consumeCallEncryptionEvent w event isRetry s2).
Proof.
  intros Hcore. unfold consumeCallEncryptionEvent.
  set (ev := decryptEventIfNeeded w event).
  destruct (isDecryptionFailure ev).
  - by destruct isRetry.
  - set (t1 := if isRetry then _ else s1). set (t2 := if isRetry then _ else s2).
    assert (Ht : core t1 = core t2) by (subst t1 t2; by destruct isRetry).
    clearbody t1 t2. case_bool_decide; [done|].
    destruct (getRoom w (getRoomId ev)) as [room|]; [|done].
    destruct (core_getRoomSession w room t1 t2 Ht) as [Hsess Hget].
    destruct (getRoomSession w room t1) as [sess u1].
    destruct (getRoomSession w room t2) as [sess' u2].
    simpl in Hsess, Hget. subst sess'. by apply core_invoke.
Qed.

Lemma core_onRoomState w event s1 s2 :
  core s1 = core s2 → core (onRoomState w event s1) = core (onRoomState w event s2).
Proof.
  intros Hcore. unfold onRoomState.
  destruct (getRoom w (getRoomId event)); [|done].
  case_bool_decide; [by apply core_refreshRoom | done].
Qed.

Lemma core_seed w (rooms : list Room) s1 s2 :
  core s1 = core s2 →
  core (foldl (seedRoom w) s1 rooms) = core (foldl (seedRoom w) s2 rooms).
Proof.
  revert s1 s2. induction rooms as [|room rooms IH]; intros s1 s2 Hcore; simpl; [done|].
  apply IH. rewrite !seedRoom_unfold.
  pose proof Hcore as (Hr & Hh & Hl & He & Hc)%core_eq.
  unfold core. simpl. by rewrite Hr, Hh, Hl, He, Hc.
Qed.

Lemma core_start w s1 s2 :
  core s1 = core s2 → core (start w s1) = core (start w s2).
Proof.
  intros Hcore. unfold start.
  pose proof (core_seed w (default [] (getRooms w)) s1 s2 Hcore)
    as (Hr & Hh & Hl & He & Hc)%core_eq.
  unfold core. simpl. by rewrite Hr, Hh, Hl, He, Hc.
Qed.

Lemma core_stop_fold w (ls : list loc) s1 s2 :
  core s1 = core s2 →
  core (foldl (λ s0 l, invoke l Call_stop (sessionStop w) s0) s1 ls)
  = core (foldl (λ s0 l, invoke l Call_stop (sessionStop w) s0) s2 ls).
Proof.
  revert s1 s2. induction ls as [|l ls IH]; intros s1 s2 Hcore; simpl; [done|].
  apply IH. by apply core_invoke.
Qed.

Lemma core_stop w s1 s2 :
  core s1 = core s2 → core (stop w s1) = core (stop w s2).
Proof.
  intros Hcore. unfold stop, sessionValues.
  pose proof Hcore as (Hreg & _)%core_eq. rewrite Hreg.
  pose proof (core_stop_fold w (map_to_list (roomSessions s2)).*2 s1 s2 Hcore)
    as (Hr & Hh & Hl & He & Hc)%core_eq.
  unfold core. simpl. by rewrite Hh, Hl, He, Hc.
Qed.

Lemma core_step w i s1 s2 :
  core s1 = core s2 → core (step w i s1) = core (step w i s2).
Proof.
  intros Hcore. destruct i; simpl.
  - by apply core_start.
  - by apply core_stop.
  - done.
  - by apply core_getRoomSession.
  - by apply core_refreshRoom.
  - by apply core_consume.
  - by apply core_onRoomState.
  - by apply core_consume.
  - pose proof Hcore as (Hr & Hh & Hl & He & Hc)%core_eq.
    apply core_eq. simpl. by rewrite Hr, Hh, Hl, He, Hc.
Qed.

Lemma core_run (trace : list (World * Input)) s1 s2 :
  core s1 = core s2 → core (run trace s1) = core (run trace s2).
Proof.
  revert s1 s2. induction trace as [|[w i] trace IH]; intros s1 s2 Hcore; [done|].
  unfold run in *. simpl. apply IH. by apply core_step.
Qed.

(** C6 (as amended): an event naming a room the client cannot resolve
    leaves the registry, the session objects, the emitted notifications and
    the listeners as they were, and whatever is handled afterwards has the
    same effect on them as if the event had not arrived.  A room-state event
    writes the error line and does nothing else.  A timeline event writes the
    error line only when it was decrypted and is a control event: when
    decryption failed it writes a warning (and sets the retry timer on a
    first attempt), and when it is of another type it writes no error. *)
Theorem unknown_room_dropped w event s :
  getRoom w (getRoomId event) = None →
  getRoom w (getRoomId (decryptEventIfNeeded w event)) = None →
  (onRoomState w event s = log LogError (unknownRoomMessage event) s
   ∧ ∀ trace, core (run trace (onRoomState w event s)) = core (run trace s))
  ∧ ∀ isRetry,
      let ev := decryptEventIfNeeded w event in
      let s' := consumeCallEncryptionEvent w event isRetry s in
      core s' = core s
      ∧ (∀ trace, core (run trace s') = core (run trace s))
      ∧ logs s' = logs s ++
          if isDecryptionFailure ev then
            [(LogWarn, if isRetry then decryptionFailedMessage ev
                       else decryptionFailedMessage ev +:+ " will retry once only")]
          else
            (if isRetry
             then [(LogInfo, "Decryption succeeded for event "
                               +:+ showUndefined (getId ev) +:+ " after retry")]
             else [])
            ++ (if bool_decide (getType ev = CallEncryptionKeysPrefix)
                then [(LogError, unknownRoomMessage ev)] else []).
Proof.
  intros Hstate Htimeline. split.
  - assert (Hdrop : onRoomState w event s = log LogError (unknownRoomMessage event) s).
    { unfold onRoomState. by rewrite Hstate. }
    split; [done|]. intros trace. apply core_run. by rewrite Hdrop.
  - intros isRetry ev s'.
    assert (Hcore : core s' = core s ∧ logs s' = logs s ++
          if isDecryptionFailure ev then
            [(LogWarn, if isRetry then decryptionFailedMessage ev
                       else decryptionFailedMessage ev +:+ " will retry once only")]
          else
            (if isRetry
             then [(LogInfo, "Decryption succeeded for event "
                               +:+ showUndefined (getId ev) +:+ " after retry")]
             else [])
            ++ (if bool_decide (getType ev = CallEncryptionKeysPrefix)
                then [(LogError, unknownRoomMessage ev)] else [])).
    { subst s'. unfold consumeCallEncryptionEvent. fold ev.
      destruct (isDecryptionFailure ev).
      - by destruct isRetry.
      - destruct (decide (getType ev = CallEncryptionKeysPrefix)) as [Hty|Hty].
        + rewrite (bool_decide_eq_false_2 (getType ev ≠ _)) by tauto.
          rewrite (bool_decide_eq_true_2 (getType ev = _)) by done.
          subst ev. rewrite Htimeline.
          destruct isRetry; simpl; by rewrite <- ?app_assoc.
        + rewrite (bool_decide_eq_true_2 (getType ev ≠ _)) by done.
          rewrite (bool_decide_eq_false_2 (getType ev = _)) by done.
          destruct isRetry; simpl; by rewrite ?app_nil_r. }
    destruct Hcore as [Hcore Hlogs].
    repeat split; try done. intros trace. by apply core_run.
Qed.

End Facts.

(** * Further properties of the manager *)

Section Further.
Context `{E : External}.

Implicit Types (s : State) (w : World) (room : Room) (event : MatrixEvent).

(** ** The two lookups *)

(** X1: after [getRoomSession] for a room, [getActiveRoomSession] returns
    for that room identifier the object [getRoomSession] returned, and for
    every other room identifier what it returned before.  The object is the
    one that was registered, or else a new one, placed after all existing
    objects and created from the room. *)
Theorem getActiveRoomSession_after_getRoomSession w room room' s :
  let l := (getRoomSession w room s).1 in
  let s' := (getRoomSession w room s).2 in
  getActiveRoomSession room' s'
  = (if decide (roomId room' = roomId room) then Some l
     else getActiveRoomSession room' s)
  ∧ l = default (length (heap s)) (getActiveRoomSession room s)
  ∧ heap s' !! l
    = match getActiveRoomSession room s with
      | Some l0 => heap s !! l0
      | None => Some (roomSessionForRoom w room)
      end.
Proof.
  intros l s'. subst l s'. unfold getActiveRoomSession.
  destruct (roomSessions s !! roomId room) as [l0|] eqn:Hl.
  - rewrite (getRoomSession_known _ _ _ l0) by done. simpl.
    repeat split. case_decide as Heq; [by rewrite Heq | done].
  - rewrite getRoomSession_new by done. simpl.
    repeat split.
    + case_decide as Heq.
      * by rewrite Heq, lookup_insert_eq.
      * by rewrite lookup_insert_ne.
    + by rewrite list_lookup_middle.
Qed.

(** ** Reachable states *)

(** X2: in every state the manager can reach, two different room
    identifiers are never registered with the same session object, and
    every registered session is an object that exists. *)
Theorem reachable_sessions_distinct s :
  reachable s →
  (∀ r1 r2 l1 l2,
     roomSessions s !! r1 = Some l1 → roomSessions s !! r2 = Some l2 →
     r1 ≠ r2 → l1 ≠ l2)
  ∧ (∀ r l, roomSessions s !! r = Some l → is_Some (heap s !! l)).
Proof.
  intros (Hinj & Hbound & _)%reachable_wellFormed. split.
  - intros r1 r2 l1 l2 H1 H2 Hne ->. apply Hne. by eapply Hinj.
  - intros r l Hl. apply lookup_lt_is_Some. by eapply Hbound.
Qed.

(** ** start and stop *)

Lemma removeListener_cons_Permutation x (l : list ClientStream) :
  x ∈ l → x :: removeListener x l ≡ₚ l.
Proof.
  induction l as [|y l IH]; intros Hin; [by apply elem_of_nil in Hin|].
  simpl. case_decide as Heq; [by subst|].
  apply elem_of_cons in Hin as [?|Hin]; [done|].
  rewrite Permutation_swap. by rewrite IH.
Qed.

Lemma removeListener_elem_of_ne x y (l : list ClientStream) :
  x ≠ y → y ∈ l → y ∈ removeListener x l.
Proof.
  intros Hne. induction l as [|z l IH]; intros Hin; [done|].
  simpl. case_decide as Heq.
  - subst. apply elem_of_cons in Hin as [?|?]; [by subst|done].
  - apply elem_of_cons in Hin as [->|Hin]; [left|right; auto].
Qed.

(** X3: [stop] undoes the subscriptions of [start].  Whatever listeners the
    manager had, after [start] and then [stop] it has the same listeners
    again (as a multiset); the notifications, the log and the timers are as
    they were, and the registry is empty. *)
Theorem stop_after_start_listeners w w' s :
  listeners (stop w' (start w s)) ≡ₚ listeners s
  ∧ roomSessions (stop w' (start w s)) = ∅
  ∧ emitted (stop w' (start w s)) = emitted s
  ∧ logs (stop w' (start w s)) = logs s
  ∧ timers (stop w' (start w s)) = timers s.
Proof.
  set (s1 := start w s).
  destruct (foldl_invoke_frame w' (sessionValues s1) s1) as (_ & Hl & He & Hlog & Ht & _).
  destruct (seed_frame w (default [] (getRooms w)) s) as (Hl0 & He0 & _ & Hlog0 & Ht0 & _).
  unfold stop. simpl. rewrite Hl, He, Hlog, Ht.
  subst s1. unfold start. simpl. rewrite Hl0, He0, Hlog0, Ht0.
  repeat split; try done.
  set (l := listeners s).
  set (l3 := ((l ++ [ClientEvent_Room]) ++ [RoomEvent_Timeline]) ++ [RoomStateEvent_Events]).
  assert (H1 : ClientEvent_Room ∈ l3) by (subst l3; rewrite !elem_of_app, !list_elem_of_singleton; tauto).
  assert (H2 : RoomEvent_Timeline ∈ removeListener ClientEvent_Room l3).
  { apply removeListener_elem_of_ne; [done|]. subst l3; rewrite !elem_of_app, !list_elem_of_singleton; tauto. }
  assert (H3 : RoomStateEvent_Events
               ∈ removeListener RoomEvent_Timeline (removeListener ClientEvent_Room l3)).
  { do 2 (apply removeListener_elem_of_ne; [done|]). subst l3; rewrite !elem_of_app, !list_elem_of_singleton; tauto. }
  apply removeListener_cons_Permutation in H1, H2, H3.
  apply (Permutation_app_inv_l
           [ClientEvent_Room; RoomEvent_Timeline; RoomStateEvent_Events]).
  simpl. rewrite H3, H2, H1. subst l3.
  rewrite <- !app_assoc. simpl.
  apply (Permutation_app_comm l
           [ClientEvent_Room; RoomEvent_Timeline; RoomStateEvent_Events]).
Qed.

(** X4: stopping a stopped manager changes nothing: for every state the
    manager can reach, a second [stop] leaves the state of the first. *)
Theorem stop_idempotent w w' s :
  reachable s → stop w' (stop w s) = stop w s.
Proof.
  intros Hreach.
  pose proof (stop_listeners w s (proj2 (proj2 (reachable_wellFormed s Hreach)))) as Hl.
  pose proof (stop_registry w s) as Hr.
  destruct (stop w s) as [r h l e c lg t]. simpl in Hl, Hr. subst r l.
  unfold stop, sessionValues. simpl. by rewrite map_to_list_empty.
Qed.

(** X5: on a manager whose registry is empty (a new one, or one that was
    stopped), after [start] the registered room identifiers are exactly those
    of the known rooms whose session has at least one member; when the
    client returns no list of rooms, the registry stays empty. *)
Theorem start_registers_exactly_rooms_with_members w s rid :
  roomSessions s = ∅ →
  (is_Some (roomSessions (start w s) !! rid)
   ↔ ∃ room, room ∈ default [] (getRooms w) ∧ roomId room = rid
             ∧ 0 < length (memberships (roomSessionForRoom w room)))
  ∧ (getRooms w = None → roomSessions (start w s) = ∅).
Proof.
  intros Hempty. split; [split|].
  - intros Hsome.
    destruct (decide (Exists (λ room, roomId room = rid
                ∧ 0 < length (memberships (roomSessionForRoom w room)))
                (default [] (getRooms w)))) as [Hex|Hnex].
    + apply Exists_exists in Hex as (room & Hin & Hid & Hmem). by exists room.
    + exfalso. unfold start in Hsome. simpl in Hsome.
      rewrite seed_registry_frame, Hempty, lookup_empty in Hsome.
      * by destruct Hsome.
      * intros room Hin Hid.
        destruct (decide (length (memberships (roomSessionForRoom w room)) = 0))
          as [|Hpos]; [done|].
        exfalso. apply Hnex, Exists_exists. exists room. repeat split; try done. lia.
  - intros (room & Hin & <- & Hmem).
    destruct (seed_registry_members w _ s room Hin Hmem) as (l & o & Hl & _).
    unfold start. simpl. by rewrite Hl.
  - intros Hnone. unfold start. rewrite Hnone. by simpl.
Qed.

(** ** What each handler leaves alone *)

Lemma refreshRoom_effect w room s :
  let rid := roomId room in
  let sess := (getRoomSession w room s).1 in
  let s1 := (getRoomSession w room s).2 in
  let s' := refreshRoom w room s in
  roomSessions s' = roomSessions s1
  ∧ heap s' = alter (onRTCSessionMemberUpdate w) sess (heap s1)
  ∧ listeners s' = listeners s ∧ logs s' = logs s ∧ timers s' = timers s
  ∧ calls s' = calls s ++ [(sess, Call_onRTCSessionMemberUpdate)]
  ∧ emitted s' = emitted s ++
      match active s rid, active s' rid with
      | true, false =>
          [{| emKind := SessionEnded; emRoomId := rid; emSession := Some sess |}]
      | false, true =>
          [{| emKind := SessionStarted; emRoomId := rid; emSession := Some sess |}]
      | _, _ => []
      end.
Proof.
  intros rid sess s1 s'. subst rid sess s1 s'.
  unfold refreshRoom, active.
  destruct (roomSessions s !! roomId room) as [l|] eqn:Hl.
  - rewrite (getRoomSession_known _ _ _ l) by done. simpl.
    rewrite ?andb_true_r.
    set (s2 := invoke l Call_onRTCSessionMemberUpdate (onRTCSessionMemberUpdate w) s).
    destruct (bool_decide (0 < membershipsLength s l)) eqn:Hwas;
      destruct (bool_decide (0 < membershipsLength s2 l)) eqn:Hnow; simpl;
      rewrite ?Hl; simpl;
      rewrite ?(membershipsLength_heap (emit _ _ s2) s2) by done;
      rewrite ?Hnow, ?app_nil_r; done.
  - rewrite getRoomSession_new by done. simpl.
    rewrite ?andb_false_r. simpl.
    set (s1 := mkState _ _ _ _ _ _ _).
    set (s2 := invoke (length (heap s)) Call_onRTCSessionMemberUpdate
                 (onRTCSessionMemberUpdate w) s1).
    destruct (bool_decide (0 < membershipsLength s2 (length (heap s)))) eqn:Hnow; simpl;
      rewrite ?lookup_insert_eq; simpl;
      rewrite ?(membershipsLength_heap (emit _ _ s2) s2) by done;
      rewrite ?Hnow, ?app_nil_r; done.
Qed.

Lemma getRoomSession_heap w room s :
  ∃ new, heap (getRoomSession w room s).2 = heap s ++ new ∧ length new ≤ 1.
Proof.
  destruct (roomSessions s !! roomId room) as [l|] eqn:Hl.
  - rewrite (getRoomSession_known _ _ _ l) by done. exists []. simpl.
    split; [by rewrite app_nil_r | lia].
  - rewrite getRoomSession_new by done. by eexists [_].
Qed.

Lemma getRoomSession_bound w room s :
  registryBound s →
  (getRoomSession w room s).1 < length (heap (getRoomSession w room s).2).
Proof.
  intros Hbound.
  destruct (roomSessions s !! roomId room) as [l|] eqn:Hl.
  - rewrite (getRoomSession_known _ _ _ l) by done. simpl. by eapply Hbound.
  - rewrite getRoomSession_new by done. simpl. rewrite length_app. simpl. lia.
Qed.

(** What one attempt on a timeline event changes. *)
Lemma consume_effect w event isRetry s :
  let ev := decryptEventIfNeeded w event in
  let s' := consumeCallEncryptionEvent w event isRetry s in
  let target :=
    if isDecryptionFailure ev then None
    else if bool_decide (getType ev = CallEncryptionKeysPrefix)
         then getRoom w (getRoomId ev) else None in
  emitted s' = emitted s ∧ listeners s' = listeners s
  ∧ timers s' = timers s ++
      (if isDecryptionFailure ev && negb isRetry
       then [{| timeoutEvent := ev; timeoutIsRetry := true; timeoutDelay := 1000 |}]
       else [])
  ∧ match target with
    | None => roomSessions s' = roomSessions s ∧ heap s' = heap s ∧ calls s' = calls s
    | Some room =>
        roomSessions s' = roomSessions (getRoomSession w room s).2
        ∧ heap s' = alter (onCallEncryption w ev) (getRoomSession w room s).1
                      (heap (getRoomSession w room s).2)
        ∧ calls s' = calls s ++ [((getRoomSession w room s).1, Call_onCallEncryption ev)]
    end.
Proof.
  intros ev s' target. subst s' target.
  destruct (isDecryptionFailure ev) eqn:Hfail.
  - rewrite (consume_failed w event isRetry s Hfail). fold ev.
    destruct isRetry; simpl; by rewrite ?app_nil_r.
  - unfold consumeCallEncryptionEvent. fold ev. rewrite Hfail. simpl.
    set (s1 := if isRetry then _ else s).
    assert (Hs1 : core s1 = core s ∧ timers s1 = timers s)
      by (subst s1; by destruct isRetry).
    destruct Hs1 as [Hcore Htimers]. clearbody s1.
    pose proof Hcore as (Hr & Hh & Hl & He & Hc)%core_eq.
    destruct (decide (getType ev = CallEncryptionKeysPrefix)) as [Hty|Hty].
    + rewrite (bool_decide_eq_false_2 (getType ev ≠ _)) by tauto.
      rewrite (bool_decide_eq_true_2 (getType ev = _)) by done.
      destruct (getRoom w (getRoomId ev)) as [room|].
      * destruct (core_getRoomSession w room s1 s Hcore) as [Hsess Hget].
        pose proof (getRoomSession_timers w room s1) as Ht1.
        destruct (getRoomSession w room s1) as [sess s2].
        simpl in *. subst sess.
        pose proof Hget as (Hr2 & Hh2 & Hl2 & He2 & Hc2)%core_eq.
        rewrite Hr2, Hh2, Hl2, He2, Hc2, Ht1, Htimers.
        rewrite getRoomSession_emitted, getRoomSession_listeners, getRoomSession_calls.
        by rewrite app_nil_r.
      * simpl. by rewrite Hr, Hh, Hl, He, Hc, Htimers, app_nil_r.
    + rewrite (bool_decide_eq_true_2 (getType ev ≠ _)) by done.
      rewrite (bool_decide_eq_false_2 (getType ev = _)) by done.
      by rewrite Hr, Hh, Hl, He, Hc, Htimers, app_nil_r.
Qed.

Lemma onRoomState_cases w event s :
  onRoomState w event s = log LogError (unknownRoomMessage event) s
  ∨ onRoomState w event s = s
  ∨ ∃ room, getRoom w (getRoomId event) = Some room
            ∧ getType event = GroupCallMemberPrefix
            ∧ onRoomState w event s = refreshRoom w room s.
Proof.
  unfold onRoomState. destruct (getRoom w (getRoomId event)) as [room|]; [|by left].
  case_bool_decide; [|by right; left]. right; right. by exists room.
Qed.

(** ** Retry timers *)

Lemma step_timers w i s :
  ∃ new, timers (step w i s) = timers s ++ new
         ∧ Forall isRetryTimer new
         ∧ length new ≤ (if isTimelineEvent i then 1 else 0)
                        + (match i with
                           | RetryFired t => if timeoutIsRetry t then 0 else 1
                           | _ => 0
                           end).
Proof.
  destruct i; simpl.
  - destruct (seed_frame w (default [] (getRooms w)) s) as (_ & _ & _ & _ & Ht & _).
    exists []. unfold start. simpl. rewrite Ht, app_nil_r. by repeat split.
  - destruct (foldl_invoke_frame w (sessionValues s) s) as (_ & _ & _ & _ & Ht & _).
    exists []. unfold stop. simpl. rewrite Ht, app_nil_r. by repeat split.
  - exists []. rewrite app_nil_r. by repeat split.
  - exists []. rewrite getRoomSession_timers, app_nil_r. by repeat split.
  - destruct (refreshRoom_effect w room s) as (_ & _ & _ & _ & Ht & _).
    exists []. unfold onRoom. rewrite Ht, app_nil_r. by repeat split.
  - destruct (consume_effect w event false s) as (_ & _ & Ht & _).
    unfold onTimeline. eexists. split; [exact Ht|].
    destruct (isDecryptionFailure (decryptEventIfNeeded w event)) eqn:Hfail; simpl.
    + split; [|lia]. by repeat constructor.
    + split; [constructor | lia].
  - exists []. rewrite app_nil_r.
    destruct (onRoomState_cases w event s) as [-> | [-> | (room & _ & _ & ->)]];
      try by repeat split.
    destruct (refreshRoom_effect w room s) as (_ & _ & _ & _ & Ht & _).
    by repeat split.
  - destruct (consume_effect w (timeoutEvent t) (timeoutIsRetry t) s) as (_ & _ & Ht & _).
    unfold fireTimeout. eexists. split; [exact Ht|].
    destruct (isDecryptionFailure _) eqn:Hfail, (timeoutIsRetry t); simpl;
      split; try lia; by repeat constructor.
  - exists []. rewrite app_nil_r. by repeat split.
Qed.

Lemma reachable_timers s : reachable s → Forall isRetryTimer (timers s).
Proof.
  induction 1 as [|w s _ IH Hl|w s _ IH|w i s _ IH Hrun].
  - constructor.
  - destruct (step_timers w CallStart s) as (new & Ht & Hnew & Hlen).
    simpl in *. rewrite Ht. apply Forall_app. by split.
  - destruct (step_timers w CallStop s) as (new & Ht & Hnew & Hlen).
    simpl in *. rewrite Ht. apply Forall_app. by split.
  - destruct (step_timers w i s) as (new & Ht & Hnew & Hlen).
    rewrite Ht. apply Forall_app. by split.
Qed.

(** X6: every timer found in a state the manager can reach is a retry: it
    is marked as one, its delay is 1000 ms and it holds an event whose
    decryption had failed.  When such a timer goes off, in whatever state and
    world, no timer is set: a retry is never retried. *)
Theorem retry_is_never_retried s t :
  reachable s → t ∈ timers s →
  timeoutIsRetry t = true ∧ timeoutDelay t = 1000%N
  ∧ isDecryptionFailure (timeoutEvent t) = true
  ∧ ∀ w s', timers (fireTimeout w t s') = timers s'.
Proof.
  intros Hreach Hin.
  pose proof (reachable_timers s Hreach) as Hall.
  rewrite Forall_forall in Hall. destruct (Hall t Hin) as (Hretry & Hdelay & Hfail).
  repeat split; try done.
  intros w s'. destruct (consume_effect w (timeoutEvent t) (timeoutIsRetry t) s')
    as (_ & _ & Ht & _).
  unfold fireTimeout. rewrite Ht, Hretry, andb_false_r. apply app_nil_r.
Qed.

(** X7: over any sequence of inputs in which the timers that go off are
    marked as retries, the manager sets at most one timer per timeline event
    it receives; all of them are retries of 1000 ms. *)
Theorem timers_bounded_by_timeline_events (trace : list (World * Input)) s :
  retriesMarked trace →
  timers s `prefix_of` timers (run trace s)
  ∧ length (timersSince s (run trace s)) ≤ timelineEvents trace
  ∧ Forall isRetryTimer (timersSince s (run trace s)).
Proof.
  intros Hmarked. revert s.
  induction Hmarked as [|[w i] trace Hi _ IH]; intros s.
  - unfold timersSince, run. simpl. rewrite drop_all. simpl.
    repeat split; [done | lia | constructor].
  - unfold run in *. simpl in *.
    destruct (IH (step w i s)) as ([rest Hrest] & Hlen & Hall).
    destruct (step_timers w i s) as (new & Ht & Hnew & Hlennew).
    unfold timersSince in *.
    rewrite Hrest, drop_app_length in Hlen, Hall.
    rewrite Hrest, Ht, <- app_assoc, drop_app_length.
    split; [by eexists|].
    unfold timelineEvents in *. rewrite filter_cons. simpl.
    split.
    + rewrite length_app.
      assert (length new ≤ if isTimelineEvent i then 1 else 0).
      { destruct i; simpl in *; try lia. by rewrite Hi in Hlennew. }
      case_decide as Hd; simpl; destruct (isTimelineEvent i); simpl in *;
        try done; lia.
    + apply Forall_app. by split.
Qed.

(** ** Where notifications and calls come from *)

Lemma step_emitted_quiet w i s :
  noMemberNews i → emitted (step w i s) = emitted s.
Proof.
  intros Hquiet. destruct i; simpl in *; try done.
  - by destruct (seed_frame w (default [] (getRooms w)) s) as (_ & -> & _).
  - by destruct (foldl_invoke_frame w (sessionValues s) s) as (_ & _ & -> & _).
  - apply getRoomSession_emitted.
  - unfold onTimeline.
    by destruct (consume_effect w event false s) as (-> & _).
  - unfold onRoomState. destruct (getRoom w (getRoomId event)); [|done].
    by rewrite bool_decide_eq_false_2.
  - unfold fireTimeout.
    by destruct (consume_effect w (timeoutEvent t) (timeoutIsRetry t) s) as (-> & _).
Qed.

(** X8: notifications come only from a room appearing and from call-member
    state events.  Any sequence of other inputs ([start], [stop], the two
    lookups, timeline events, retries, state events of other types) leaves the
    emitted notifications as they were. *)
Theorem emits_only_on_member_news (trace : list (World * Input)) s :
  Forall (λ wi, noMemberNews wi.2) trace →
  emitted (run trace s) = emitted s.
Proof.
  intros Hquiet. revert s.
  induction Hquiet as [|[w i] trace Hi _ IH]; intros s; [done|].
  unfold run in *. simpl in *. rewrite IH. by apply step_emitted_quiet.
Qed.

Lemma step_calls_running w i s :
  whileRunning i = true →
  ∃ new, calls (step w i s) = calls s ++ new
         ∧ Forall (λ c, c.2 ≠ Call_stop
                        ∧ ∃ rid, roomSessions (step w i s) !! rid = Some c.1) new.
Proof.
  intros Hrun.
  assert (Hrefresh : ∀ room,
    ∃ new, calls (refreshRoom w room s) = calls s ++ new
           ∧ Forall (λ c, c.2 ≠ Call_stop
                          ∧ ∃ rid, roomSessions (refreshRoom w room s) !! rid = Some c.1) new).
  { intros room.
    destruct (refreshRoom_effect w room s) as (Hr & _ & _ & _ & _ & Hc & _).
    eexists. split; [exact Hc|]. repeat constructor; [done|].
    exists (roomId room). simpl. rewrite Hr. apply getRoomSession_registered. }
  assert (Hconsume : ∀ event isRetry,
    ∃ new, calls (consumeCallEncryptionEvent w event isRetry s) = calls s ++ new
           ∧ Forall (λ c, c.2 ≠ Call_stop
                          ∧ ∃ rid, roomSessions (consumeCallEncryptionEvent w event isRetry s)
                                     !! rid = Some c.1) new).
  { intros event isRetry.
    destruct (consume_effect w event isRetry s) as (_ & _ & _ & Htarget).
    destruct (if isDecryptionFailure _ then _ else _) as [room|].
    - destruct Htarget as (Hr & _ & Hc).
      eexists. split; [exact Hc|]. repeat constructor; [done|].
      exists (roomId room). simpl. rewrite Hr. apply getRoomSession_registered.
    - destruct Htarget as (_ & _ & Hc). exists []. by rewrite Hc, app_nil_r. }
  destruct i as [| |room|room|room|event|event|t|l change]; simpl in *.
  - done.
  - done.
  - exists []. by rewrite app_nil_r.
  - exists []. by rewrite getRoomSession_calls, app_nil_r.
  - apply Hrefresh.
  - apply Hconsume.
  - destruct (onRoomState_cases w event s) as [-> | [-> | (room & _ & _ & ->)]].
    + exists []. simpl. by rewrite app_nil_r.
    + exists []. by rewrite app_nil_r.
    + apply Hrefresh.
  - apply Hconsume.
  - exists []. by rewrite app_nil_r.
Qed.

(** X9: while the manager runs, every method it invokes on a session object
    is invoked on an object that is registered (and stays registered to the
    end of the run), and it never invokes [stop] on a session. *)
Theorem running_calls_target_registered_sessions (trace : list (World * Input)) s :
  Forall (λ wi, whileRunning wi.2 = true) trace →
  calls s `prefix_of` calls (run trace s)
  ∧ Forall (λ c, c.2 ≠ Call_stop
                 ∧ ∃ rid, roomSessions (run trace s) !! rid = Some c.1)
           (callsSince s (run trace s)).
Proof.
  intros Hrun. revert s.
  induction Hrun as [|[w i] trace Hi Hrest IH]; intros s.
  - unfold callsSince, run. simpl. rewrite drop_all. by split.
  - unfold run in *. simpl in *.
    destruct (IH (step w i s)) as ([rest Hprefix] & Hall).
    destruct (step_calls_running w i s Hi) as (new & Hc & Hnew).
    unfold callsSince in *.
    rewrite Hprefix, drop_app_length in Hall.
    rewrite Hprefix, Hc, <- app_assoc, drop_app_length.
    split; [by eexists|].
    apply Forall_app. split; [|done].
    eapply Forall_impl; [exact Hnew|].
    intros [l c] [Hstop [rid Hrid]]. split; [done|]. exists rid.
    eapply lookup_weaken; [exact Hrid|]. by apply (run_subseteq trace).
Qed.

Lemma step_heap_mono w i s : length (heap s) ≤ length (heap (step w i s)).
Proof.
  destruct i; cbn [step].
  - destruct (seed_frame w (default [] (getRooms w)) s) as (_ & _ & _ & _ & _ & Hh).
    unfold start. simpl. rewrite Hh, length_app. lia.
  - by rewrite stop_heap_length.
  - done.
  - destruct (getRoomSession_heap w room s) as (new & -> & _). rewrite length_app. lia.
  - destruct (refreshRoom_effect w room s) as (_ & Hh & _).
    unfold onRoom. rewrite Hh, length_alter.
    destruct (getRoomSession_heap w room s) as (new & -> & _). rewrite length_app. lia.
  - destruct (consume_effect w event false s) as (_ & _ & _ & Htarget).
    unfold onTimeline.
    destruct (if isDecryptionFailure _ then _ else _) as [room|].
    + destruct Htarget as (_ & -> & _). rewrite length_alter.
      destruct (getRoomSession_heap w room s) as (new & -> & _). rewrite length_app. lia.
    + by destruct Htarget as (_ & -> & _).
  - destruct (onRoomState_cases w event s) as [-> | [-> | (room & _ & _ & ->)]];
      try done.
    destruct (refreshRoom_effect w room s) as (_ & Hh & _). rewrite Hh, length_alter.
    destruct (getRoomSession_heap w room s) as (new & -> & _). rewrite length_app. lia.
  - destruct (consume_effect w (timeoutEvent t) (timeoutIsRetry t) s)
      as (_ & _ & _ & Htarget).
    unfold fireTimeout.
    destruct (if isDecryptionFailure _ then _ else _) as [room|].
    + destruct Htarget as (_ & -> & _). rewrite length_alter.
      destruct (getRoomSession_heap w room s) as (new & -> & _). rewrite length_app. lia.
    + by destruct Htarget as (_ & -> & _).
  - simpl. by rewrite length_alter.
Qed.

Lemma refreshRoom_emitted_sessions w room s :
  registryBound s →
  ∃ new, emitted (refreshRoom w room s) = emitted s ++ new
         ∧ Forall (λ e, emRoomId e = roomId room
                        ∧ ∃ l, emSession e = Some l
                               ∧ l < length (heap (refreshRoom w room s))) new.
Proof.
  intros Hbound.
  destruct (refreshRoom_effect w room s) as (_ & Hh & _ & _ & _ & _ & He).
  pose proof (getRoomSession_bound w room s Hbound) as Hlt.
  eexists. split; [exact He|].
  rewrite Hh, length_alter.
  destruct (active s (roomId room)), (active (refreshRoom w room s) (roomId room));
    repeat constructor; simpl; eauto.
Qed.

Lemma step_emitted_sessions w i s :
  registryBound s →
  ∃ new, emitted (step w i s) = emitted s ++ new
         ∧ Forall (λ e, ∃ l, emSession e = Some l ∧ l < length (heap (step w i s))) new.
Proof.
  intros Hbound.
  assert (Hquiet : noMemberNews i →
    ∃ new, emitted (step w i s) = emitted s ++ new
           ∧ Forall (λ e, ∃ l, emSession e = Some l
                               ∧ l < length (heap (step w i s))) new).
  { intros Hq. exists []. rewrite app_nil_r.
    split; [by apply step_emitted_quiet | constructor]. }
  assert (Hrefresh : ∀ room,
    ∃ new, emitted (refreshRoom w room s) = emitted s ++ new
           ∧ Forall (λ e, ∃ l, emSession e = Some l
                               ∧ l < length (heap (refreshRoom w room s))) new).
  { intros room.
    destruct (refreshRoom_emitted_sessions w room s Hbound) as (new & He & Hall).
    exists new. split; [done|]. eapply Forall_impl; [exact Hall|].
    by intros e [_ Hsess]. }
  destruct i as [| |room|room|room|event|event|t|l change];
    try (by apply Hquiet); cbn [step]; clear Hquiet.
  - apply Hrefresh.
  - destruct (onRoomState_cases w event s) as [-> | [-> | (room & _ & _ & ->)]].
    + exists []. simpl. by rewrite app_nil_r.
    + exists []. by rewrite app_nil_r.
    + apply Hrefresh.
Qed.

(** X10: every notification found in a state the manager can reach carries
    a session, never [undefined], and that session is an object that
    exists. *)
Theorem emitted_sessions_defined s :
  reachable s →
  Forall (λ e, ∃ l, emSession e = Some l ∧ is_Some (heap s !! l)) (emitted s).
Proof.
  intros Hreach.
  cut (Forall (λ e, ∃ l, emSession e = Some l ∧ l < length (heap s)) (emitted s)).
  { intros Hall. eapply Forall_impl; [exact Hall|].
    intros e (l & He & Hl). exists l. split; [done|].
    by apply lookup_lt_is_Some. }
  assert (Hstep : ∀ w i s0,
    wellFormed s0 →
    Forall (λ e, ∃ l, emSession e = Some l ∧ l < length (heap s0)) (emitted s0) →
    Forall (λ e, ∃ l, emSession e = Some l ∧ l < length (heap (step w i s0)))
           (emitted (step w i s0))).
  { intros w i s0 (_ & Hbound & _) Hall.
    destruct (step_emitted_sessions w i s0 Hbound) as (new & -> & Hnew).
    apply Forall_app. split; [|done].
    eapply Forall_impl; [exact Hall|]. intros e (l & He & Hl). exists l.
    split; [done|]. pose proof (step_heap_mono w i s0). lia. }
  induction Hreach as [|w s Hreach IH Hl|w s Hreach IH|w i s Hreach IH Hrun].
  - constructor.
  - apply (Hstep w CallStart s); [by apply reachable_wellFormed | done].
  - apply (Hstep w CallStop s); [by apply reachable_wellFormed | done].
  - apply (Hstep w i s); [by apply reachable_wellFormed | done].
Qed.

(** ** One room at a time *)

Lemma active_ext s1 s2 rid :
  roomSessions s1 !! rid = roomSessions s2 !! rid →
  (∀ l, roomSessions s2 !! rid = Some l →
        length ∘ memberships <$> heap s1 !! l = length ∘ memberships <$> heap s2 !! l) →
  active s1 rid = active s2 rid.
Proof.
  intros Hr Hh. unfold active, membershipsLength. rewrite Hr.
  destruct (roomSessions s2 !! rid) as [l|]; [|done].
  specialize (Hh l eq_refl).
  destruct (heap s1 !! l), (heap s2 !! l); simpl in *; try done.
  injection Hh as Hh. by rewrite Hh.
Qed.

Lemma getRoomSession_other w room s rid :
  is_Some (roomSessions s !! rid) ∨ rid ≠ roomId room →
  roomSessions (getRoomSession w room s).2 !! rid = roomSessions s !! rid.
Proof.
  intros Hrid.
  destruct (roomSessions s !! roomId room) as [l|] eqn:Hl.
  - by rewrite (getRoomSession_known _ _ _ l).
  - rewrite getRoomSession_new by done. simpl. apply lookup_insert_ne.
    intros <-. destruct Hrid as [[? ?]|?]; [congruence|done].
Qed.

Lemma getRoomSession_heap_lookup w room s l :
  l < length (heap s) → heap (getRoomSession w room s).2 !! l = heap s !! l.
Proof.
  intros Hl. destruct (getRoomSession_heap w room s) as (new & -> & _).
  by apply lookup_app_l.
Qed.

(** Away from the room it is called for, a refresh changes neither the
    entry nor the object. *)
Lemma refreshRoom_other w room s rid :
  wellFormed s → rid ≠ roomId room →
  roomSessions (refreshRoom w room s) !! rid = roomSessions s !! rid
  ∧ ∀ l, roomSessions s !! rid = Some l →
         heap (refreshRoom w room s) !! l = heap s !! l.
Proof.
  intros Hwf Hne.
  destruct (refreshRoom_effect w room s) as (Hr & Hh & _).
  pose proof (wellFormed_getRoomSession w room s Hwf) as (Hinj1 & _).
  destruct Hwf as (_ & Hbound & _).
  rewrite Hr, Hh. split; [apply getRoomSession_other; by right|].
  intros l Hl.
  assert (Hl1 : roomSessions (getRoomSession w room s).2 !! rid = Some l).
  { rewrite getRoomSession_other; [done | by right]. }
  rewrite list_lookup_alter_ne.
  - apply getRoomSession_heap_lookup. by eapply Hbound.
  - intros Heq. apply Hne. symmetry.
    apply (Hinj1 (roomId room) rid l); [|exact Hl1].
    rewrite <- Heq. apply getRoomSession_registered.
Qed.

Lemma emissionsFor_other rid r (es : list Emission) :
  rid ≠ r → Forall (λ e, emRoomId e = r) es → emissionsFor rid es = [].
Proof.
  intros Hne Hall. unfold emissionsFor.
  induction Hall as [|e es Hid _ IH]; [done|].
  rewrite filter_cons_False; [done | by rewrite Hid].
Qed.

(** X11: in a state the manager can reach, refreshing one room leaves every
    other room as it was: its registry entry, its session object, and so
    whether it is active. *)
Theorem refreshRoom_leaves_other_rooms w room s rid :
  reachable s → rid ≠ roomId room →
  let s' := refreshRoom w room s in
  roomSessions s' !! rid = roomSessions s !! rid
  ∧ (∀ l, roomSessions s !! rid = Some l → heap s' !! l = heap s !! l)
  ∧ active s' rid = active s rid
  ∧ emissionsFor rid (emittedSince s s') = [].
Proof.
  intros Hwf%reachable_wellFormed Hne s'. subst s'.
  destruct (refreshRoom_other w room s rid Hwf Hne) as [Hr Hh].
  repeat split; try done.
  - apply active_ext; [done|]. intros l Hl. by rewrite Hh.
  - destruct Hwf as (_ & Hbound & _).
    destruct (refreshRoom_emitted_sessions w room s Hbound) as (new & He & Hall).
    unfold emittedSince. rewrite He, drop_app_length.
    apply (emissionsFor_other rid (roomId room)); [done|].
    eapply Forall_impl; [exact Hall|]. by intros e [Hid _].
Qed.

(** ** Notifications follow the activity of a room *)

Lemma active_registered s rid : active s rid = true → is_Some (roomSessions s !! rid).
Proof. unfold active. destruct (roomSessions s !! rid); [eauto | done]. Qed.

Lemma getRoomSession_active w room s rid :
  wellFormed s → is_Some (roomSessions s !! rid) →
  active (getRoomSession w room s).2 rid = active s rid.
Proof.
  intros (_ & Hbound & _) Hreg. apply active_ext.
  - apply getRoomSession_other. by left.
  - intros l Hl. rewrite getRoomSession_heap_lookup; [done | by eapply Hbound].
Qed.

Lemma alter_active (f : MatrixRTCSession → MatrixRTCSession) sess s1 s' rid :
  (∀ o, length (memberships (f o)) = length (memberships o)) →
  roomSessions s' = roomSessions s1 → heap s' = alter f sess (heap s1) →
  active s' rid = active s1 rid.
Proof.
  intros Hkeep Hr Hh. apply active_ext; [by rewrite Hr|].
  intros l _. rewrite Hh, list_lookup_alter. case_decide; [subst|done].
  destruct (heap s1 !! l); simpl; [|done]. by rewrite Hkeep.
Qed.

Lemma consume_active w event isRetry s rid :
  (∀ w' ev o, length (memberships (onCallEncryption w' ev o)) = length (memberships o)) →
  wellFormed s → is_Some (roomSessions s !! rid) →
  active (consumeCallEncryptionEvent w event isRetry s) rid = active s rid.
Proof.
  intros Hkeep Hwf Hreg.
  destruct (consume_effect w event isRetry s) as (_ & _ & _ & Htarget).
  destruct (if isDecryptionFailure _ then _ else _) as [room|].
  - destruct Htarget as (Hr & Hh & _).
    rewrite <- (getRoomSession_active w room s rid Hwf Hreg).
    eapply alter_active; [apply Hkeep | exact Hr | exact Hh].
  - destruct Htarget as (Hr & Hh & _). apply active_ext; by rewrite ?Hr, ?Hh.
Qed.

Lemma emissionsFor_app rid (es1 es2 : list Emission) :
  emissionsFor rid (es1 ++ es2) = emissionsFor rid es1 ++ emissionsFor rid es2.
Proof. unfold emissionsFor. by rewrite filter_app, fmap_app. Qed.

(** What one refresh does to the notifications and the activity of a room. *)
Lemma refreshRoom_edge w room s rid :
  wellFormed s →
  ∃ new, emitted (refreshRoom w room s) = emitted s ++ new
    ∧ ((emissionsFor rid new = []
        ∧ (is_Some (roomSessions s !! rid) →
           active (refreshRoom w room s) rid = active s rid))
       ∨ (emissionsFor rid new = [SessionStarted]
          ∧ active s rid = false ∧ active (refreshRoom w room s) rid = true)
       ∨ (emissionsFor rid new = [SessionEnded]
          ∧ active s rid = true ∧ active (refreshRoom w room s) rid = false)).
Proof.
  intros Hwf.
  destruct (refreshRoom_effect w room s) as (_ & _ & _ & _ & _ & _ & He).
  eexists. split; [exact He|].
  destruct (decide (rid = roomId room)) as [->|Hne].
  - destruct (active s (roomId room)) eqn:Hwas,
             (active (refreshRoom w room s) (roomId room)) eqn:Hnow.
    + left. done.
    + right; right. unfold emissionsFor. by rewrite filter_cons_True.
    + right; left. unfold emissionsFor. by rewrite filter_cons_True.
    + left. done.
  - left. split.
    + apply (emissionsFor_other rid (roomId room)); [done|].
      destruct (active s (roomId room)), (active (refreshRoom w room s) (roomId room));
        by repeat constructor.
    + intros _. destruct (refreshRoom_other w room s rid Hwf Hne) as [Hr Hh].
      apply active_ext; [done|]. intros l Hl. by rewrite Hh.
Qed.

Lemma step_edge w i s rid :
  (∀ w' ev o, length (memberships (onCallEncryption w' ev o)) = length (memberships o)) →
  keepsMembers i →
  wellFormed s → whileRunning i = true →
  ∃ new, emitted (step w i s) = emitted s ++ new
    ∧ ((emissionsFor rid new = []
        ∧ (is_Some (roomSessions s !! rid) → active (step w i s) rid = active s rid))
       ∨ (emissionsFor rid new = [SessionStarted]
          ∧ active s rid = false ∧ active (step w i s) rid = true)
       ∨ (emissionsFor rid new = [SessionEnded]
          ∧ active s rid = true ∧ active (step w i s) rid = false)).
Proof.
  intros Hkeep Hout Hwf Hrun.
  assert (Hnone : ∀ s',
    emitted s' = emitted s →
    (is_Some (roomSessions s !! rid) → active s' rid = active s rid) →
    ∃ new, emitted s' = emitted s ++ new
      ∧ ((emissionsFor rid new = []
          ∧ (is_Some (roomSessions s !! rid) → active s' rid = active s rid))
         ∨ (emissionsFor rid new = [SessionStarted]
            ∧ active s rid = false ∧ active s' rid = true)
         ∨ (emissionsFor rid new = [SessionEnded]
            ∧ active s rid = true ∧ active s' rid = false))).
  { intros s' He Ha. exists []. rewrite app_nil_r. split; [done|]. by left. }
  destruct i as [| |room|room|room|event|event|t|l change]; cbn [step]; simpl in Hrun.
  - done.
  - done.
  - by apply Hnone.
  - apply Hnone; [apply getRoomSession_emitted | by apply getRoomSession_active].
  - by apply refreshRoom_edge.
  - apply Hnone.
    + unfold onTimeline. by destruct (consume_effect w event false s) as (-> & _).
    + by apply consume_active.
  - destruct (onRoomState_cases w event s) as [-> | [-> | (room & _ & _ & ->)]].
    + by apply Hnone.
    + by apply Hnone.
    + by apply refreshRoom_edge.
  - apply Hnone.
    + unfold fireTimeout.
      by destruct (consume_effect w (timeoutEvent t) (timeoutIsRetry t) s) as (-> & _).
    + by apply consume_active.
  - apply Hnone; [done|]. intros _.
    by apply (alter_active change l s (changeSession l change s) rid Hout).
Qed.

Lemma run_alternates (trace : list (World * Input)) s rid :
  (∀ w' ev o, length (memberships (onCallEncryption w' ev o)) = length (memberships o)) →
  Forall (λ wi, keepsMembers wi.2) trace →
  wellFormed s →
  Forall (λ wi, whileRunning wi.2 = true) trace →
  let ks := emissionsFor rid (emittedSince s (run trace s)) in
  emitted s `prefix_of` emitted (run trace s)
  ∧ alternates ks = true
  ∧ (is_Some (roomSessions s !! rid) →
       match head ks with
       | Some k => k = if active s rid then SessionEnded else SessionStarted
       | None => active (run trace s) rid = active s rid
       end)
  ∧ (∀ k, last ks = Some k → active (run trace s) rid = bool_decide (k = SessionStarted)).
Proof.
  intros Hkeep Hout Hwf Hrun. revert s Hwf.
  induction Hrun as [|[w i] trace Hi Hrest IH]; intros s Hwf.
  - unfold emittedSince, run. simpl. rewrite drop_all. by repeat split.
  - simpl in Hi. apply Forall_cons in Hout as [Hout1 Hout].
    pose proof (wellFormed_step w i s Hi Hwf) as Hwf1.
    destruct (IH Hout (step w i s) Hwf1) as ([rest Hprefix] & HA & HB & HC). clear IH.
    destruct (step_edge w i s rid Hkeep Hout1 Hwf Hi) as (new & He & Hcases).
    change (run ((w, i) :: trace) s) with (run trace (step w i s)).
    set (s1 := step w i s) in *. set (final := run trace s1) in *.
    unfold emittedSince in *.
    rewrite Hprefix, drop_app_length in HA, HB, HC.
    rewrite Hprefix, He, <- app_assoc, drop_app_length, emissionsFor_app.
    split; [by eexists|].
    set (ks2 := emissionsFor rid rest) in *.
    assert (Hsub : is_Some (roomSessions s !! rid) → is_Some (roomSessions s1 !! rid)).
    { intros [l Hl]. exists l. eapply lookup_weaken; [exact Hl|].
      by apply step_subseteq. }
    destruct Hcases as [[-> Hpres] | [(-> & Hwas & Hnow) | (-> & Hwas & Hnow)]]; simpl.
    + repeat split; try done.
      intros Hreg. specialize (HB (Hsub Hreg)). by rewrite (Hpres Hreg) in HB.
    + specialize (HB (active_registered _ _ Hnow)). rewrite Hnow in HB.
      repeat split.
      * destruct ks2 as [|k2 ks2']; [done|]. simpl in HB. subst k2.
        simpl in *. by rewrite HA.
      * intros _. by rewrite Hwas.
      * intros k. rewrite last_cons. destruct (last ks2) as [y|] eqn:Hlast.
        -- intros [= <-]. by apply HC.
        -- intros [= <-]. apply last_None in Hlast. rewrite Hlast in HB.
           simpl in HB. by rewrite HB.
    + assert (Hreg : is_Some (roomSessions s !! rid)) by by apply active_registered.
      specialize (HB (Hsub Hreg)). rewrite Hnow in HB.
      repeat split.
      * destruct ks2 as [|k2 ks2']; [done|]. simpl in HB. subst k2.
        simpl in *. by rewrite HA.
      * intros _. by rewrite Hwas.
      * intros k. rewrite last_cons. destruct (last ks2) as [y|] eqn:Hlast.
        -- intros [= <-]. by apply HC.
        -- intros [= <-]. apply last_None in Hlast. rewrite Hlast in HB.
           simpl in HB. by rewrite HB.
Qed.

(** X12: let the number of members of a session change only through
    [onRTCSessionMemberUpdate]: [onCallEncryption] leaves it as it is, and so
    does every change made to a session object outside the manager's
    handlers.  Then, from a state the manager can reach, over any sequence of
    inputs handled while it runs, the notifications emitted for one room
    alternate between [SessionStarted] and [SessionEnded].  If the room was
    registered at the beginning, the first of them is [SessionEnded] when the
    room was active and [SessionStarted] when it was not, and without any the
    room is as active at the end as at the beginning; the last of them tells
    whether the room is active at the end.  Without the proviso this fails:
    the manager re-reads the members of the live object at every refresh. *)
Theorem notifications_alternate (trace : list (World * Input)) s rid :
  (∀ w event o, length (memberships (onCallEncryption w event o)) = length (memberships o)) →
  Forall (λ wi, keepsMembers wi.2) trace →
  reachable s →
  Forall (λ wi, whileRunning wi.2 = true) trace →
  let ks := emissionsFor rid (emittedSince s (run trace s)) in
  alternates ks = true
  ∧ (is_Some (roomSessions s !! rid) →
       match head ks with
       | Some k => k = if active s rid then SessionEnded else SessionStarted
       | None => active (run trace s) rid = active s rid
       end)
  ∧ (∀ k, last ks = Some k → active (run trace s) rid = bool_decide (k = SessionStarted)).
Proof.
  intros Hkeep Hout Hwf%reachable_wellFormed Hrun.
  by destruct (run_alternates trace s rid Hkeep Hout Hwf Hrun) as (_ & HA & HB & HC).
Qed.

(** X13: let recomputing the members twice in the same world give as many
    members as recomputing them once.  Then a refresh that follows a refresh
    of the same room in the same world (the room reported as appeared twice,
    a state event delivered twice) emits nothing. *)
Theorem refreshRoom_twice_emits_once w room s :
  (∀ o, length (memberships (onRTCSessionMemberUpdate w (onRTCSessionMemberUpdate w o)))
        = length (memberships (onRTCSessionMemberUpdate w o))) →
  emitted (refreshRoom w room (refreshRoom w room s)) = emitted (refreshRoom w room s).
Proof.
  intros Hidem.
  destruct (refreshRoom_effect w room s) as (Hr & Hh & _).
  set (s1 := refreshRoom w room s) in *.
  pose proof (getRoomSession_registered w room s) as Hreg. rewrite <- Hr in Hreg.
  set (sess := (getRoomSession w room s).1) in *.
  destruct (refreshRoom_effect w room s1) as (Hr2 & Hh2 & _ & _ & _ & _ & He2).
  rewrite (getRoomSession_known w room s1 sess Hreg) in Hr2, Hh2, He2. simpl in *.
  assert (Hsame : active (refreshRoom w room s1) (roomId room) = active s1 (roomId room)).
  { apply active_ext; [by rewrite Hr2|]. intros l Hl.
    rewrite Hl in Hreg. injection Hreg as ->.
    rewrite Hh2, list_lookup_alter_eq, Hh, list_lookup_alter_eq.
    destruct (heap (getRoomSession w room s).2 !! sess); simpl; [|done].
    by rewrite Hidem. }
  rewrite He2, Hsame. destruct (active s1 (roomId room)); by rewrite app_nil_r.
Qed.

(** ** Causes and non-effects *)

(** X14: every method the manager invokes on a session has its cause in the
    input being handled: [stop] is invoked only by the manager's [stop],
    [onRTCSessionMemberUpdate] only for a room that appeared or for a
    call-member state event of a known room, and [onCallEncryption] only for
    a timeline event or a retry, with the event as decrypted, not a
    decryption failure and of the control type.  The two lookups and [start]
    invoke nothing. *)
Theorem calls_have_their_cause w i s c :
  c ∈ callsSince s (step w i s) →
  match c.2 with
  | Call_stop => i = CallStop
  | Call_onRTCSessionMemberUpdate =>
      match i with
      | RoomAppeared _ => True
      | RoomStateEvent event =>
          getType event = GroupCallMemberPrefix ∧ is_Some (getRoom w (getRoomId event))
      | _ => False
      end
  | Call_onCallEncryption ev =>
      isDecryptionFailure ev = false ∧ getType ev = CallEncryptionKeysPrefix
      ∧ match i with
        | TimelineEvent event => ev = decryptEventIfNeeded w event
        | RetryFired t => ev = decryptEventIfNeeded w (timeoutEvent t)
        | _ => False
        end
  end.
Proof.
  unfold callsSince.
  assert (Hrefresh : ∀ room,
    c ∈ drop (length (calls s)) (calls (refreshRoom w room s)) →
    c.2 = Call_onRTCSessionMemberUpdate).
  { intros room. destruct (refreshRoom_effect w room s) as (_ & _ & _ & _ & _ & -> & _).
    rewrite drop_app_length. by intros ->%list_elem_of_singleton. }
  assert (Hconsume : ∀ event isRetry,
    c ∈ drop (length (calls s)) (calls (consumeCallEncryptionEvent w event isRetry s)) →
    ∃ ev, c.2 = Call_onCallEncryption ev ∧ ev = decryptEventIfNeeded w event
          ∧ isDecryptionFailure ev = false ∧ getType ev = CallEncryptionKeysPrefix).
  { intros event isRetry.
    destruct (consume_effect w event isRetry s) as (_ & _ & _ & Htarget).
    destruct (isDecryptionFailure (decryptEventIfNeeded w event)) eqn:Hfail.
    { destruct Htarget as (_ & _ & ->). rewrite drop_all. by intros ?%elem_of_nil. }
    case_bool_decide as Hty.
    - destruct (getRoom w (getRoomId _)) as [room|].
      + destruct Htarget as (_ & _ & ->). rewrite drop_app_length.
        intros ->%list_elem_of_singleton. by eexists.
      + destruct Htarget as (_ & _ & ->). rewrite drop_all. by intros ?%elem_of_nil.
    - destruct Htarget as (_ & _ & ->). rewrite drop_all. by intros ?%elem_of_nil. }
  destruct i as [| |room|room|room|event|event|t|l change]; cbn [step];
    [| | | | | | | |simpl; rewrite drop_all; by intros ?%elem_of_nil].
  - destruct (seed_frame w (default [] (getRooms w)) s) as (_ & _ & Hc & _).
    unfold start. simpl. rewrite Hc, drop_all. by intros ?%elem_of_nil.
  - destruct (foldl_invoke_frame w (sessionValues s) s) as (_&_&_&_&_&_& Hc).
    unfold stop. simpl. rewrite Hc, drop_app_length.
    by intros (l & -> & _)%list_elem_of_fmap.
  - rewrite drop_all. by intros ?%elem_of_nil.
  - rewrite getRoomSession_calls, drop_all. by intros ?%elem_of_nil.
  - intros Hin. by rewrite (Hrefresh room Hin).
  - intros (ev & -> & -> & Hfail & Hty)%Hconsume. done.
  - unfold onRoomState. destruct (getRoom w (getRoomId event)) as [room|] eqn:Hroom.
    + case_bool_decide as Hty.
      * intros Hin. rewrite (Hrefresh room Hin). split; [done | by eexists].
      * rewrite drop_all. by intros ?%elem_of_nil.
    + simpl. rewrite drop_all. by intros ?%elem_of_nil.
  - intros (ev & -> & -> & Hfail & Hty)%Hconsume. done.
Qed.

(** X15: [start] creates one session object for each room the client
    knows, in the order of the rooms and after the objects that exist, which
    it leaves as they are; it invokes no method on any session, writes no
    log line and sets no timer. *)
Theorem start_creates_one_object_per_room w s :
  heap (start w s) = heap s ++ (roomSessionForRoom w <$> default [] (getRooms w))
  ∧ calls (start w s) = calls s
  ∧ logs (start w s) = logs s
  ∧ timers (start w s) = timers s.
Proof.
  destruct (seed_frame w (default [] (getRooms w)) s) as (_ & _ & Hc & Hlog & Ht & Hh).
  unfold start. simpl. by rewrite Hc, Hlog, Ht, Hh.
Qed.

(** X16: [stop] emits nothing, so no [SessionEnded] for the sessions it
    stops, however active; it leaves the timers that were set (a pending
    retry is not cancelled), writes no log line and creates no object. *)
Theorem stop_is_silent w s :
  emitted (stop w s) = emitted s
  ∧ timers (stop w s) = timers s
  ∧ logs (stop w s) = logs s
  ∧ length (heap (stop w s)) = length (heap s).
Proof.
  destruct (foldl_invoke_frame w (sessionValues s) s) as (_ & _ & He & Hlog & Ht & Hh & _).
  unfold stop. simpl. by rewrite He, Hlog, Ht, Hh.
Qed.

(** X17: the retry flag decides only what is logged and whether a timer is
    set.  On the registry, the session objects, the calls, the notifications
    and the listeners, a retry of an event has the effect the first attempt
    would have in the same world and state. *)
Theorem retry_flag_only_logs_and_timers w event s :
  core (consumeCallEncryptionEvent w event true s)
  = core (consumeCallEncryptionEvent w event false s).
Proof.
  destruct (consume_effect w event true s) as (He1 & Hl1 & _ & Ht1).
  destruct (consume_effect w event false s) as (He2 & Hl2 & _ & Ht2).
  apply core_eq. rewrite He1, He2, Hl1, Hl2.
  destruct (if isDecryptionFailure _ then _ else _) as [room|].
  - destruct Ht1 as (-> & -> & ->), Ht2 as (-> & -> & ->). done.
  - destruct Ht1 as (-> & -> & ->), Ht2 as (-> & -> & ->). done.
Qed.

(** X18: a room whose session is created by [getRoomSession] (called
    directly, or by a keys event) rather than by a refresh counts as known
    from then on.  If that session has members when it is created, the next
    refresh of the room emits no [SessionStarted]: it emits nothing when the
    session still has members after the update, and [SessionEnded] when it
    has none. *)
Theorem refresh_after_lookup_emits_no_start w w' room s :
  roomSessions s !! roomId room = None →
  0 < length (memberships (roomSessionForRoom w room)) →
  let s1 := (getRoomSession w room s).2 in
  let updated := onRTCSessionMemberUpdate w' (roomSessionForRoom w room) in
  emitted (refreshRoom w' room s1) = emitted s ++
    if bool_decide (0 < length (memberships updated)) then []
    else [{| emKind := SessionEnded; emRoomId := roomId room;
             emSession := Some (length (heap s)) |}].
Proof.
  intros Hnew Hmem s1 updated. subst s1.
  rewrite getRoomSession_new by done. cbn [snd].
  set (s1 := mkState _ _ _ _ _ _ _).
  assert (Hreg : roomSessions s1 !! roomId room = Some (length (heap s)))
    by apply lookup_insert_eq.
  assert (Hobj : heap s1 !! length (heap s) = Some (roomSessionForRoom w room))
    by (by apply list_lookup_middle).
  destruct (refreshRoom_effect w' room s1) as (Hr & Hh & _ & _ & _ & _ & He).
  rewrite (getRoomSession_known w' room s1 _ Hreg) in Hr, Hh, He.
  cbn [fst snd] in Hr, Hh, He.
  assert (Hwas : active s1 (roomId room) = true).
  { unfold active, membershipsLength. rewrite Hreg, Hobj. by apply bool_decide_eq_true_2. }
  assert (Hnow : active (refreshRoom w' room s1) (roomId room)
                 = bool_decide (0 < length (memberships updated))).
  { unfold active, membershipsLength. rewrite Hr, Hreg, Hh.
    by rewrite list_lookup_alter_eq, Hobj. }
  rewrite He, Hwas, Hnow. by destruct (bool_decide _).
Qed.

(** X19: in every state the manager can reach (with [start] called only on
    a manager that is not subscribed), the manager listens to all three
    client event streams, once each, or to none. *)
Theorem subscribed_to_all_or_none s :
  reachable s →
  listeners s = []
  ∨ listeners s = [ClientEvent_Room; RoomEvent_Timeline; RoomStateEvent_Events].
Proof. by intros (_ & _ & Hsub)%reachable_wellFormed. Qed.

End Further.

(** * The manager on the reference client *)

Import Reference.

(** X20, on the reference client: the object created for room B on a started
    manager is still the one returned after a series of inputs. *)
Lemma getRoomSession_identity_stable_witness :
  Forall (λ wi : RefWorld * Input, whileRunning wi.2 = true) busyTrace
  ∧ roomId roomB = roomId roomB
  ∧ (getRoomSession world roomB
       (run busyTrace (getRoomSession world roomB started).2)).1
    = (getRoomSession world roomB started).1.
Proof.
  assert (Hrun : Forall (λ wi : RefWorld * Input, whileRunning wi.2 = true) busyTrace)
    by (repeat constructor).
  split; [exact Hrun|]. split; [reflexivity|].
  exact (proj1 (proj2 (proj2
    (getRoomSession_identity_stable world roomB started busyTrace world roomB
       Hrun eq_refl)))).
Defined.

(** C2: the code does not keep the session object of a room for the
    lifetime of the client.  [start] sets the entry of every known room with
    members without looking whether the room is registered (the [has] test of
    [getRoomSession] is missing from its loop).  On a new manager
    [getRoomSession] returns object 0 for room A, which has a call member;
    after [start], room A is registered with object 1 and [getRoomSession]
    returns object 1.  Both objects exist and [stop] was invoked on neither,
    so whoever holds object 0 holds a session that is no longer the room's. *)
Lemma start_replaces_earlier_entry :
  let before := (getRoomSession world roomA init).2 in
  let after := start world before in
  (getRoomSession world roomA init).1 = 0
  ∧ roomSessions before !! roomId roomA = Some 0
  ∧ roomSessions after !! roomId roomA = Some 1
  ∧ (getRoomSession world roomA after).1 = 1
  ∧ is_Some (heap after !! 0) ∧ is_Some (heap after !! 1)
  ∧ calls after = [].
Proof. repeat split; try (by vm_compute); by eexists. Qed.

(** C3 does not hold as stated: the manager runs and has emitted nothing,
    room A is not registered and has one call member; when room A appears,
    [SessionStarted] is emitted for it. *)
Lemma onRoom_discovery_emits_SessionStarted :
  roomSessions startedBeforeA !! roomId roomA = None
  ∧ emitted startedBeforeA = []
  ∧ length (memberships (roomSessionForRoom world roomA)) = 1
  ∧ emitted (onRoom world roomA startedBeforeA)
    = [{| emKind := SessionStarted; emRoomId := "!a:example.org";
          emSession := Some 2 |}].
Proof. repeat split; by vm_compute. Qed.

Lemma onRoom_first_sight_witness :
  roomSessions startedBeforeA !! roomId roomA = None
  ∧ emitted (onRoom world roomA startedBeforeA)
    = [{| emKind := SessionStarted; emRoomId := roomId roomA; emSession := Some 2 |}].
Proof.
  split; [reflexivity|].
  exact (proj2 (proj2 (onRoom_first_sight world roomA startedBeforeA eq_refl))).
Defined.

(** C5, on the reference client: a started manager tracks rooms A and C;
    stopping it empties the registry, removes the listeners and stops the
    two session objects. *)
Lemma stop_clears_state_witness :
  reachable started
  ∧ size (roomSessions started) = 2
  ∧ roomSessions (stop world started) = ∅
  ∧ listeners (stop world started) = []
  ∧ calls (stop world started) = (λ l, (l, Call_stop)) <$> sessionValues started.
Proof.
  assert (Hreach : reachable started).
  { apply reachable_start; [apply reachable_init | reflexivity]. }
  split; [exact Hreach|]. split; [reflexivity|].
  pose proof (stop_clears_state world started Hreach)
    as (Hreg & _ & Hlisteners & Hcalls & _).
  split; [exact Hreg|]. split; [exact Hlisteners|]. exact Hcalls.
Defined.

(** C6 does not hold as stated: a message of an unknown room arrives on the
    timeline and no error is logged. *)
Lemma stray_message_logs_no_error :
  getRoom world (getRoomId strayMessage) = None
  ∧ logs started = []
  ∧ logs (onTimeline world strayMessage started) = [].
Proof. repeat split; by vm_compute. Qed.

Lemma unknown_room_dropped_witness :
  getRoom world (getRoomId strayKeys) = None
  ∧ getRoom world (getRoomId (decryptEventIfNeeded world strayKeys)) = None
  ∧ onRoomState world strayKeys started
    = log LogError (unknownRoomMessage strayKeys) started
  ∧ logs (consumeCallEncryptionEvent world strayKeys false started)
    = [(LogError, "Got room state event for unknown room !nowhere:example.org!")].
Proof.
  split; [reflexivity|]. split; [reflexivity|].
  pose proof (unknown_room_dropped world strayKeys started eq_refl eq_refl)
    as [[Hstate _] Htimeline].
  split; [exact Hstate|].
  exact (proj2 (proj2 (Htimeline false))).
Defined.

(** C7 does not hold as stated: the client knows room B, which has no call member,
    and after [start] room B has no registry entry. *)
Lemma start_skips_rooms_without_members :
  roomB ∈ default [] (getRooms world)
  ∧ roomSessions (start world init) !! roomId roomB = None.
Proof. split; [|reflexivity]. right. left. Qed.

Lemma start_seeds_rooms_with_members_witness :
  roomC ∈ default [] (getRooms world)
  ∧ 0 < length (memberships (roomSessionForRoom world roomC))
  ∧ ∃ l o, roomSessions (start world init) !! roomId roomC = Some l
           ∧ heap (start world init) !! l = Some o ∧ 0 < length (memberships o).
Proof.
  assert (Hin : roomC ∈ default [] (getRooms world)) by (right; right; left).
  assert (Hmem : 0 < length (memberships (roomSessionForRoom world roomC)))
    by (vm_compute; lia).
  split; [exact Hin|]. split; [exact Hmem|].
  pose proof (start_seeds_rooms_with_members world init)
    as (_ & _ & _ & _ & _ & Hseed & _).
  exact (Hseed roomC Hin Hmem).
Defined.

(** C8 does not hold as stated: an ordinary message that cannot be decrypted
    arrives on the timeline and a retry timer is set for it. *)
Lemma undecryptable_message_schedules_retry :
  getType messageEvent ≠ CallEncryptionKeysPrefix
  ∧ getType (decryptEventIfNeeded worldNoKeys messageEvent) ≠ CallEncryptionKeysPrefix
  ∧ timers started = []
  ∧ timers (onTimeline worldNoKeys messageEvent started)
    = [{| timeoutEvent := decryptEventIfNeeded worldNoKeys messageEvent;
          timeoutIsRetry := true; timeoutDelay := 1000 |}].
Proof. repeat split; by vm_compute. Qed.

Lemma consumeCallEncryptionEvent_other_type_witness :
  getType (decryptEventIfNeeded worldNoKeys messageEvent) ≠ CallEncryptionKeysPrefix
  ∧ core (consumeCallEncryptionEvent worldNoKeys messageEvent false started)
    = core started
  ∧ timers (consumeCallEncryptionEvent worldNoKeys messageEvent false started)
    = [{| timeoutEvent := decryptEventIfNeeded worldNoKeys messageEvent;
          timeoutIsRetry := true; timeoutDelay := 1000 |}].
Proof.
  assert (Hty : getType (decryptEventIfNeeded worldNoKeys messageEvent)
                ≠ CallEncryptionKeysPrefix) by (by vm_compute).
  split; [exact Hty|].
  exact (consumeCallEncryptionEvent_other_type worldNoKeys messageEvent false started Hty).
Defined.

(** C9 does not hold as stated: the manager was stopped while a retry was pending;
    the registry is empty, the timer goes off when the keys are there, and
    room A is registered again, with a new session object. *)
Lemma late_retry_recreates_entry :
  roomSessions stoppedWithPendingRetry = ∅
  ∧ timers stoppedWithPendingRetry = [keysRetry]
  ∧ length (heap stoppedWithPendingRetry) = 3
  ∧ roomSessions (fireTimeout world keysRetry stoppedWithPendingRetry)
      !! "!a:example.org" = Some 3.
Proof. repeat split; by vm_compute. Qed.

(** ** Further properties, on the reference client *)

Lemma started_reachable : reachable started.
Proof. apply reachable_start; [apply reachable_init | reflexivity]. Defined.

Lemma startedWithRetry_reachable : reachable startedWithRetry.
Proof.
  apply (reachable_step (E:=refExternal) worldNoKeys (TimelineEvent keysEvent) started);
    [apply started_reachable | reflexivity].
Defined.

Lemma startedThenA_reachable : reachable startedThenA.
Proof.
  apply (reachable_step (E:=refExternal) world
           (RoomAppeared (E:=refExternal) roomA) startedBeforeA);
    [|reflexivity].
  apply reachable_start; [apply reachable_init | reflexivity].
Defined.

Lemma refCallEncryption_keeps_members (w : RefWorld) (event : MatrixEvent) (o : RefSession) :
  length (memberships (onCallEncryption w event o)) = length (memberships o).
Proof. reflexivity. Qed.

Lemma refMemberUpdate_twice (w : RefWorld) (o : RefSession) :
  length (memberships (onRTCSessionMemberUpdate w (onRTCSessionMemberUpdate w o)))
  = length (memberships (onRTCSessionMemberUpdate w o)).
Proof.
  change (length (refSessionMemberships (refMemberUpdate w (refMemberUpdate w o)))
          = length (refSessionMemberships (refMemberUpdate w o))).
  assert (Hroom : refSessionRoom (refMemberUpdate w o) = refSessionRoom o).
  { unfold refMemberUpdate. by destruct (refGetRoom w (Some (refSessionRoom o))). }
  unfold refMemberUpdate at 1. rewrite Hroom. unfold refMemberUpdate.
  by destruct (refGetRoom w (Some (refSessionRoom o))).
Qed.

(** X2 on the started manager. *)
Lemma reachable_sessions_distinct_witness :
  reachable started
  ∧ (∀ r1 r2 l1 l2,
       roomSessions started !! r1 = Some l1 → roomSessions started !! r2 = Some l2 →
       r1 ≠ r2 → l1 ≠ l2)
  ∧ (∀ r l, roomSessions started !! r = Some l → is_Some (heap started !! l)).
Proof.
  split; [apply started_reachable|].
  exact (reachable_sessions_distinct started started_reachable).
Defined.

(** X4 on the started manager. *)
Lemma stop_idempotent_witness :
  reachable started ∧ stop worldNoKeys (stop world started) = stop world started.
Proof.
  split; [apply started_reachable|].
  exact (stop_idempotent world worldNoKeys started started_reachable).
Defined.

(** X5 on a new manager: rooms A and C are registered by [start], room B is
    not. *)
Lemma start_registers_exactly_rooms_with_members_witness :
  roomSessions init = ∅
  ∧ (is_Some (roomSessions (start world init) !! roomId roomB)
     ↔ ∃ room, room ∈ default [] (getRooms world) ∧ roomId room = roomId roomB
               ∧ 0 < length (memberships (roomSessionForRoom world room))).
Proof.
  split; [reflexivity|].
  exact (proj1 (start_registers_exactly_rooms_with_members world init (roomId roomB)
                  eq_refl)).
Defined.

(** X6 for the retry that is pending after [keysEvent]. *)
Lemma retry_is_never_retried_witness :
  reachable startedWithRetry ∧ keysRetry ∈ timers startedWithRetry
  ∧ timeoutIsRetry keysRetry = true
  ∧ ∀ w s', timers (fireTimeout w keysRetry s') = timers s'.
Proof.
  assert (Hin : keysRetry ∈ timers startedWithRetry) by (vm_compute; left).
  split; [apply startedWithRetry_reachable|]. split; [exact Hin|].
  pose proof (retry_is_never_retried startedWithRetry keysRetry
                startedWithRetry_reachable Hin) as (Hretry & _ & _ & Hchain).
  split; [exact Hretry | exact Hchain].
Defined.

(** X7 for the busy trace, which holds one timeline event. *)
Lemma timers_bounded_by_timeline_events_witness :
  retriesMarked busyTrace
  ∧ length (timersSince started (run busyTrace started)) ≤ timelineEvents busyTrace.
Proof.
  assert (Hmarked : retriesMarked busyTrace) by (repeat constructor).
  split; [exact Hmarked|].
  exact (proj1 (proj2 (timers_bounded_by_timeline_events busyTrace started Hmarked))).
Defined.

(** X8 for a trace with [start], a keys event, its retry, a message as state
    event, a lookup and [stop]. *)
Lemma emits_only_on_member_news_witness :
  Forall (λ wi : RefWorld * Input, noMemberNews wi.2) quietTrace
  ∧ emitted (run quietTrace init) = emitted init.
Proof.
  assert (Hquiet : Forall (λ wi : RefWorld * Input, noMemberNews wi.2) quietTrace).
  { repeat constructor. simpl. discriminate. }
  split; [exact Hquiet|].
  exact (emits_only_on_member_news quietTrace init Hquiet).
Defined.

(** X9 for the busy trace. *)
Lemma running_calls_target_registered_sessions_witness :
  Forall (λ wi : RefWorld * Input, whileRunning wi.2 = true) busyTrace
  ∧ Forall (λ c, c.2 ≠ Call_stop
                 ∧ ∃ rid, roomSessions (run busyTrace started) !! rid = Some c.1)
           (callsSince started (run busyTrace started)).
Proof.
  assert (Hrun : Forall (λ wi : RefWorld * Input, whileRunning wi.2 = true) busyTrace)
    by (repeat constructor).
  split; [exact Hrun|].
  exact (proj2 (running_calls_target_registered_sessions busyTrace started Hrun)).
Defined.

(** X10 after the notification for room A. *)
Lemma emitted_sessions_defined_witness :
  reachable startedThenA
  ∧ Forall (λ e, ∃ l, emSession e = Some l ∧ is_Some (heap startedThenA !! l))
           (emitted startedThenA).
Proof.
  split; [apply startedThenA_reachable|].
  exact (emitted_sessions_defined startedThenA startedThenA_reachable).
Defined.

(** X11: refreshing room A while the call is over leaves room C alone. *)
Lemma refreshRoom_leaves_other_rooms_witness :
  reachable started ∧ roomId roomC ≠ roomId roomAEmpty
  ∧ active (refreshRoom worldAEmpty roomAEmpty started) (roomId roomC)
    = active started (roomId roomC).
Proof.
  assert (Hne : roomId roomC ≠ roomId roomAEmpty) by (by vm_compute).
  split; [apply started_reachable|]. split; [exact Hne|].
  exact (proj1 (proj2 (proj2
    (refreshRoom_leaves_other_rooms worldAEmpty roomAEmpty started (roomId roomC)
       started_reachable Hne)))).
Defined.

(** X12 for the call in room A that ends, starts again and ends again. *)
Lemma notifications_alternate_witness :
  (∀ (w : RefWorld) event o,
     length (memberships (onCallEncryption w event o)) = length (memberships o))
  ∧ Forall (λ wi : RefWorld * Input, keepsMembers wi.2) callTrace
  ∧ reachable started
  ∧ Forall (λ wi : RefWorld * Input, whileRunning wi.2 = true) callTrace
  ∧ alternates (emissionsFor (roomId roomA)
                  (emittedSince started (run callTrace started))) = true.
Proof.
  assert (Hrun : Forall (λ wi : RefWorld * Input, whileRunning wi.2 = true) callTrace)
    by (repeat constructor).
  assert (Hout : Forall (λ wi : RefWorld * Input, keepsMembers wi.2) callTrace)
    by (repeat constructor).
  split; [exact refCallEncryption_keeps_members|]. split; [exact Hout|].
  split; [apply started_reachable|]. split; [exact Hrun|].
  exact (proj1 (notifications_alternate callTrace started (roomId roomA)
                  refCallEncryption_keeps_members Hout started_reachable Hrun)).
Defined.

(** The proviso of X12 is needed: when the members of the session object of
    room A are removed from outside the manager between two refreshes that
    both find the call on, [SessionStarted] is emitted twice in a row. *)
Example outside_change_breaks_alternation :
  emissionsFor (roomId roomA)
    (emittedSince startedBeforeA (run outsideTrace startedBeforeA))
  = [SessionStarted; SessionStarted].
Proof. by vm_compute. Qed.

(** The notifications of that run, for room A. *)
Example callTrace_emissions :
  emissionsFor (roomId roomA) (emittedSince started (run callTrace started))
  = [SessionEnded; SessionStarted; SessionEnded].
Proof. by vm_compute. Qed.

(** X13: room A reported as appeared twice. *)
Lemma refreshRoom_twice_emits_once_witness :
  (∀ o, length (memberships (onRTCSessionMemberUpdate world
                               (onRTCSessionMemberUpdate world o)))
        = length (memberships (onRTCSessionMemberUpdate world o)))
  ∧ emitted (refreshRoom world roomA (refreshRoom world roomA startedBeforeA))
    = emitted (refreshRoom world roomA startedBeforeA).
Proof.
  split; [exact (refMemberUpdate_twice world)|].
  exact (refreshRoom_twice_emits_once world roomA startedBeforeA
           (refMemberUpdate_twice world)).
Defined.

(** X14 for [keysEvent] arriving with its keys on the started manager. *)
Lemma calls_have_their_cause_witness :
  (0, Call_onCallEncryption keysEvent)
    ∈ callsSince started (step world (TimelineEvent keysEvent) started)
  ∧ isDecryptionFailure keysEvent = false
  ∧ getType keysEvent = CallEncryptionKeysPrefix
  ∧ keysEvent = decryptEventIfNeeded world keysEvent.
Proof.
  assert (Hin : (0, Call_onCallEncryption keysEvent)
                  ∈ callsSince started (step world (TimelineEvent keysEvent) started))
    by (vm_compute; left).
  split; [exact Hin|].
  exact (calls_have_their_cause world (TimelineEvent keysEvent) started
           (0, Call_onCallEncryption keysEvent) Hin).
Defined.

(** X18: room A is looked up before it appears, while its call is on. *)
Lemma refresh_after_lookup_emits_no_start_witness :
  roomSessions startedBeforeA !! roomId roomA = None
  ∧ 0 < length (memberships (roomSessionForRoom world roomA))
  ∧ emitted (refreshRoom world roomA (getRoomSession world roomA startedBeforeA).2)
    = emitted startedBeforeA.
Proof.
  assert (Hmem : 0 < length (memberships (roomSessionForRoom world roomA)))
    by (vm_compute; lia).
  split; [reflexivity|]. split; [exact Hmem|].
  pose proof (refresh_after_lookup_emits_no_start world world roomA startedBeforeA
                eq_refl Hmem) as He.
  etrans; [exact He|]. apply app_nil_r.
Defined.

(** X19 on the started manager. *)
Lemma subscribed_to_all_or_none_witness :
  reachable started
  ∧ (listeners started = []
     ∨ listeners started
       = [ClientEvent_Room; RoomEvent_Timeline; RoomStateEvent_Events]).
Proof.
  split; [apply started_reachable|].
  exact (subscribed_to_all_or_none started started_reachable).
Defined.
